(** * caddy-trojan [app/upstream.go]: the credential and traffic ledger

    A shallow embedding of the two [Upstream] backends of
    [src/app/upstream.go] and the properties the specification states
    about them.

    - Go [string] is [string] (a sequence of 8-bit characters), [[]byte]
      is [list byte]; [utils.StringToByteSlice] and
      [utils.ByteSliceToString] are the two casts between them.
    - [int64] is [Z] with the wrap-around of Go's [+=] written out.
    - [map[string]Traffic] is [option (gmap string Traffic)]: [None] is
      the nil map, on which an assignment panics.
    - [certmagic.Storage], the logger and the visitor passed to [Range]
      are effects of a small free monad; a run against any storage
      records the calls that were made. *)

From Stdlib Require Import ZArith NArith Lia List Ascii String Strings.Byte.
From Stdlib Require Import DecimalString DecimalPos DecimalZ.
From stdpp Require Import gmap strings list fin_maps.

Local Open Scope Z_scope.

(** ** Go values *)

(** [error]: a Go error value, identified with its message; the nil
    error is [None] of [option error]. *)
Definition error := string.

(** [len(s)] of a Go string: its number of bytes. *)
Definition len (s : string) : nat := String.length s.

Definition StringToByteSlice (s : string) : list byte := list_byte_of_string s.
Definition ByteSliceToString (b : list byte) : string := string_of_list_byte b.

(** [int64] arithmetic: the sum is reduced into [-2^63, 2^63). *)
Definition int64_min : Z := - 2 ^ 63.
Definition int64_max : Z := 2 ^ 63 - 1.
Definition int64_range (z : Z) : Prop := int64_min <= z <= int64_max.
Definition wrap64 (z : Z) : Z := (z + 2 ^ 63) mod 2 ^ 64 - 2 ^ 63.
Definition int64_add (a b : Z) : Z := wrap64 (a + b).

(** Modelled from the spec: the struct [Traffic] is declared in a file of
    the package that is not under src/; the spec gives it as the record
    [{up: int64, down: int64}]. *)
Record Traffic : Type := { Up : Z; Down : Z }.

(** [Traffic{}] and [Traffic{Up: 0, Down: 0}]. *)
Definition Traffic_zero : Traffic := {| Up := 0; Down := 0 |}.

#[global] Instance Traffic_eq_dec : EqDecision Traffic.
Proof. solve_decision. Defined.

(** ** encoding/base64, [StdEncoding.EncodeToString] *)

Definition encodeStd : string :=
  "ABCDEFGHIJKLMNOPQRSTUVWXYZabcdefghijklmnopqrstuvwxyz0123456789+/".

(** The character of a 6-bit value in the standard alphabet. *)
Definition b64char (v : N) : ascii :=
  match String.get (N.to_nat (N.land v 63)) encodeStd with
  | Some c => c
  | None => "="%char
  end.

(** Three source bytes make four characters; a remainder of one or two
    bytes is padded with [=]. *)
Fixpoint EncodeToString (src : list byte) : string :=
  match src with
  | [] => EmptyString
  | [a] =>
      let v := N.shiftl (Byte.to_N a) 16 in
      String (b64char (N.shiftr v 18)) (String (b64char (N.shiftr v 12))
        (String "=" (String "=" EmptyString)))
  | [a; b] =>
      let v := N.lor (N.shiftl (Byte.to_N a) 16) (N.shiftl (Byte.to_N b) 8) in
      String (b64char (N.shiftr v 18)) (String (b64char (N.shiftr v 12))
        (String (b64char (N.shiftr v 6)) (String "=" EmptyString)))
  | a :: b :: c :: rest =>
      let v := N.lor (N.lor (N.shiftl (Byte.to_N a) 16) (N.shiftl (Byte.to_N b) 8))
                     (Byte.to_N c) in
      String (b64char (N.shiftr v 18)) (String (b64char (N.shiftr v 12))
        (String (b64char (N.shiftr v 6)) (String (b64char v)
          (EncodeToString rest))))
  end.

(** ** strings.TrimPrefix *)

Fixpoint drop_string (n : nat) (s : string) : string :=
  match n, s with
  | O, _ => s
  | S n', String _ s' => drop_string n' s'
  | S _, EmptyString => EmptyString
  end.

Definition TrimPrefix (s prefix : string) : string :=
  if String.prefix prefix s then drop_string (String.length prefix) s else s.

(** ** crypto/sha256 [Sum224] and encoding/hex [Encode]

    The derivation of a key from a secret, [trojan.GenKey], is the hex
    encoding of the SHA-224 digest of the secret: the comment in
    [Validate] spells the stored key out as
    [base64(hex.Encode(sha256.Sum224(secret)))]. *)

Module Sha224.

Local Open Scope N_scope.

Definition w32 (x : N) : N := x mod 2 ^ 32.
Definition add32 (x y : N) : N := w32 (x + y).
Definition rotr (x n : N) : N :=
  N.lor (N.shiftr x n) (w32 (N.shiftl x (32 - n))).
Definition not32 (x : N) : N := N.lxor x (2 ^ 32 - 1).

Definition Ch (x y z : N) : N := N.lxor (N.land x y) (N.land (not32 x) z).
Definition Maj (x y z : N) : N :=
  N.lxor (N.lxor (N.land x y) (N.land x z)) (N.land y z).
Definition bsig0 (x : N) : N := N.lxor (N.lxor (rotr x 2) (rotr x 13)) (rotr x 22).
Definition bsig1 (x : N) : N := N.lxor (N.lxor (rotr x 6) (rotr x 11)) (rotr x 25).
Definition ssig0 (x : N) : N := N.lxor (N.lxor (rotr x 7) (rotr x 18)) (N.shiftr x 3).
Definition ssig1 (x : N) : N := N.lxor (N.lxor (rotr x 17) (rotr x 19)) (N.shiftr x 10).

(** The round constants: the first 32 bits of the fractional parts of
    the cube roots of the first 64 primes. *)
Definition is_prime (n : nat) : bool :=
  forallb (fun d => negb (n mod d =? 0)%nat) (seq 2 (n - 2)).

Definition primes64 : list nat := List.filter is_prime (seq 2 310).

(** The integer cube root, found bit by bit from the top. *)
Fixpoint cube_root (bits : nat) (n r : N) : N :=
  match bits with
  | O => r
  | S bits' =>
      let c := r + 2 ^ N.of_nat bits' in
      cube_root bits' n (if c * c * c <=? n then c else r)
  end.

Definition K : list N :=
  Eval vm_compute in
    map (fun p => w32 (cube_root 36 (N.of_nat p * 2 ^ 96) 0)) primes64.

(** The eight working words of the hash. *)
Record digest : Type :=
  { h0 : N; h1 : N; h2 : N; h3 : N; h4 : N; h5 : N; h6 : N; h7 : N }.

(** The initial words of SHA-224: the second 32 bits of the fractional
    parts of the square roots of the ninth to the sixteenth prime. *)
Definition root_word (p : N) : N := w32 (N.sqrt (p * 2 ^ 128)).

Definition init224 : digest :=
  Eval vm_compute in
    {| h0 := root_word 23; h1 := root_word 29; h2 := root_word 31;
       h3 := root_word 37; h4 := root_word 41; h5 := root_word 43;
       h6 := root_word 47; h7 := root_word 53 |}.

Definition byte_of_N (n : N) : byte :=
  match Byte.of_N (n mod 256) with Some b => b | None => x00 end.

(** Padding: the bit 1, zeros up to 56 modulo 64, the bit length on 8 bytes. *)
Definition be_bytes (count : nat) (n : N) : list byte :=
  map (fun i => byte_of_N (N.shiftr n (8 * N.of_nat (count - 1 - i)))) (seq 0 count).

Definition pad (msg : list byte) : list byte :=
  let l := length msg in
  msg ++ [x80] ++ repeat x00 ((64 - (l + 9) mod 64) mod 64)%nat
      ++ be_bytes 8 (8 * N.of_nat l).

Fixpoint be_words (b : list byte) : list N :=
  match b with
  | a :: b :: c :: d :: rest =>
      (N.shiftl (Byte.to_N a) 24 + N.shiftl (Byte.to_N b) 16
       + N.shiftl (Byte.to_N c) 8 + Byte.to_N d) :: be_words rest
  | _ => []
  end.

Definition wd (w : list N) (i : nat) : N := nth i w 0.

(** The message schedule, extended from 16 to 64 words. *)
Fixpoint schedule (n : nat) (w : list N) : list N :=
  match n with
  | O => w
  | S n' =>
      let t := length w in
      schedule n'
        (w ++ [add32 (add32 (ssig1 (wd w (t - 2))) (wd w (t - 7)))
                     (add32 (ssig0 (wd w (t - 15))) (wd w (t - 16)))])
  end.

Definition round (s : digest) (kw : N * N) : digest :=
  let t1 := add32 (add32 (add32 (h7 s) (bsig1 (h4 s)))
                         (add32 (Ch (h4 s) (h5 s) (h6 s)) (fst kw))) (snd kw) in
  let t2 := add32 (bsig0 (h0 s)) (Maj (h0 s) (h1 s) (h2 s)) in
  {| h0 := add32 t1 t2; h1 := h0 s; h2 := h1 s; h3 := h2 s;
     h4 := add32 (h3 s) t1; h5 := h4 s; h6 := h5 s; h7 := h6 s |}.

Definition block (s : digest) (blk : list byte) : digest :=
  let w := schedule 48 (be_words blk) in
  let r := fold_left round (combine K w) s in
  {| h0 := add32 (h0 s) (h0 r); h1 := add32 (h1 s) (h1 r);
     h2 := add32 (h2 s) (h2 r); h3 := add32 (h3 s) (h3 r);
     h4 := add32 (h4 s) (h4 r); h5 := add32 (h5 s) (h5 r);
     h6 := add32 (h6 s) (h6 r); h7 := add32 (h7 s) (h7 r) |}.

Fixpoint blocks (n : nat) (s : digest) (data : list byte) : digest :=
  match n with
  | O => s
  | S n' => blocks n' (block s (firstn 64 data)) (skipn 64 data)
  end.

(** [sha256.Sum224]: the first seven words of the final state, 28 bytes. *)
Definition Sum224 (msg : list byte) : list byte :=
  let p := pad msg in
  let s := blocks (length p / 64) init224 p in
  concat (map (be_bytes 4) [h0 s; h1 s; h2 s; h3 s; h4 s; h5 s; h6 s]).

End Sha224.

Definition hextable : string := "0123456789abcdef".

Definition hexchar (v : N) : byte :=
  match String.get (N.to_nat (N.land v 15)) hextable with
  | Some c => byte_of_ascii c
  | None => x00
  end.

(** [hex.Encode]: two lower-case digits for each byte. *)
Fixpoint hex_Encode (src : list byte) : list byte :=
  match src with
  | [] => []
  | b :: rest =>
      hexchar (N.shiftr (Byte.to_N b) 4) :: hexchar (Byte.to_N b) :: hex_Encode rest
  end.

(** ** The collaborators: key derivation and the record's serialization *)

(** Modelled from the spec: [trojan.HeaderLen] is declared in package
    [trojan], which is not under src/. It is the length of a derived key;
    [AuthLen = 76] is, by the comment in [Validate], the length of the
    base64 encoding of the hex encoding of a SHA-224 digest, that is of
    56 bytes. *)
Definition HeaderLen : nat := 56.

Definition AuthLen : nat := 76.

(** Modelled from the spec: the derivation function of package [trojan]
    (not under src/), [derive(secret) -> fixed-length bytes],
    deterministic. The ledger is stated over any such function. *)
Class Deriver : Type := derive : string -> list byte.

(** [trojan.GenKey(s, key)] writes the derived bytes at the start of the
    slice [key]; the slice keeps its length, whatever is written. *)
Definition GenKey `{Deriver} (s : string) (key : list byte) : list byte :=
  take (length key) (derive s ++ drop (length (derive s)) key).

(** The derivation the source names: hex of SHA-224. *)
Definition sha224_derive : Deriver :=
  fun s => hex_Encode (Sha224.Sum224 (StringToByteSlice s)).

(** [encoding/json] on a [Traffic]: [Marshal] returns the bytes or an
    error, [Unmarshal] updates the record it is given in place and
    returns an error or nil. *)
Class Json : Type :=
  { json_Marshal : Traffic -> list byte + error;
    json_Unmarshal : list byte -> Traffic -> Traffic * option error }.

(** What the spec requires of the serialization: a record whose counters
    are [int64] values is written without error and read back exactly,
    whatever the record it is read into held before. *)
Class JsonRoundTrip `{Json} : Prop :=
  json_round_trip :
    forall t cur : Traffic, int64_range (Up t) -> int64_range (Down t) ->
    exists b, json_Marshal t = inl b /\ json_Unmarshal b cur = (t, None).

(** A realization of [Json]: the object Go writes for the record,
    an opening brace, the member up, a comma, the member down, a closing
    brace, without spaces; the decoder reads that form and no other. *)
Module JsonText.

Definition dq : ascii := ascii_of_nat 34.

Definition up_open : string := String "{" (String dq ("up" +:+ String dq ":")).
Definition down_open : string := String "," (String dq ("down" +:+ String dq ":")).

Definition dec (z : Z) : string := NilZero.string_of_int (Z.to_int z).

Definition Marshal (t : Traffic) : list byte + error :=
  inl (list_byte_of_string
         (up_open +:+ dec (Up t) +:+ down_open +:+ dec (Down t) +:+ "}")).

Definition is_num_char (c : ascii) : bool :=
  let n := nat_of_ascii c in
  ((48 <=? n)%nat && (n <=? 57)%nat) || (n =? 45)%nat.

(** The longest prefix of sign and digit characters, and the rest. *)
Fixpoint span_num (s : string) : string * string :=
  match s with
  | EmptyString => (EmptyString, EmptyString)
  | String c s' =>
      if is_num_char c
      then let '(n, r) := span_num s' in (String c n, r)
      else (EmptyString, s)
  end.

Definition strip_prefix (p s : string) : option string :=
  if String.prefix p s then Some (drop_string (String.length p) s) else None.

Definition parse_int64 (s : string) : option Z :=
  match NilZero.int_of_string s with
  | Some d =>
      let z := Z.of_int d in
      if (int64_min <=? z) && (z <=? int64_max) then Some z else None
  | None => None
  end.

Definition parse (s : string) : option Traffic :=
  match strip_prefix up_open s with
  | None => None
  | Some r1 =>
      let '(n1, r2) := span_num r1 in
      match parse_int64 n1, strip_prefix down_open r2 with
      | Some u, Some r3 =>
          let '(n2, r4) := span_num r3 in
          match parse_int64 n2 with
          | Some d => if String.eqb r4 "}" then Some {| Up := u; Down := d |} else None
          | None => None
          end
      | _, _ => None
      end
  end.

Definition Unmarshal (b : list byte) (cur : Traffic) : Traffic * option error :=
  match parse (string_of_list_byte b) with
  | Some t => (t, None)
  | None => (cur, Some "json: cannot unmarshal into Go value of type app.Traffic"%string)
  end.

Definition json : Json :=
  {| json_Marshal := Marshal; json_Unmarshal := Unmarshal |}.

End JsonText.

(** ** Go maps

    A map value is nil ([None]) or an allocated table. Reading, deleting
    from and ranging over a nil map are defined; assigning to an entry of
    a nil map panics. *)

Definition go_index (m : option (gmap string Traffic)) (k : string) : Traffic * bool :=
  match m with
  | Some g => match g !! k with Some v => (v, true) | None => (Traffic_zero, false) end
  | None => (Traffic_zero, false)
  end.

(** [m[k] = v]; [None] is the panic. *)
Definition go_assign (m : option (gmap string Traffic)) (k : string) (v : Traffic)
  : option (option (gmap string Traffic)) :=
  match m with
  | Some g => Some (Some (<[k := v]> g))
  | None => None
  end.

Definition go_delete (m : option (gmap string Traffic)) (k : string)
  : option (gmap string Traffic) :=
  match m with
  | Some g => Some (delete k g)
  | None => None
  end.

(** [for k, v := range m]: the entries, in the order the run visits them. *)
Definition go_range (m : option (gmap string Traffic)) : list (string * Traffic) :=
  match m with
  | Some g => map_to_list g
  | None => []
  end.

(** ** The [Upstream] interface, as the calls a client can make *)

Inductive call : Type :=
| CallAdd (s : string)
| CallAddKey (k : string)
| CallDel (s : string)
| CallDelKey (k : string)
| CallRange
| CallValidate (k : string)
| CallConsume (k : string) (nr nw : Z).

(** One invocation of the visitor: [fn(k, up, down)]. *)
Definition visit : Type := string * Z * Z.

(** ** MemoryUpstream

    The mutex [mu] brackets every access to [mm]; in this sequential
    embedding each method runs alone and the mutex is not represented. *)

Module MemoryUpstream.

Record t : Type := { mm : option (gmap string Traffic) }.

(** [new(MemoryUpstream)], the value the module constructor returns: the
    zero value of the struct, whose map is nil. *)
Definition New : t := {| mm := None |}.

(** A method returns a value and leaves a state, or panics. *)
Inductive outcome (A : Type) : Type :=
| Returns (a : A) (u : t)
| Panics.
Arguments Returns {A} a u.
Arguments Panics {A}.

Definition AddKey (u : t) (k : string) : outcome (option error) :=
  let key := EncodeToString (StringToByteSlice k) in
  match go_assign (mm u) key {| Up := 0; Down := 0 |} with
  | Some m => Returns None {| mm := m |}
  | None => Panics
  end.

Definition Add `{Deriver} (u : t) (s : string) : outcome (option error) :=
  let b := repeat x00 HeaderLen in
  let b := GenKey s b in
  AddKey u (ByteSliceToString b).

Definition DelKey (u : t) (k : string) : outcome (option error) :=
  let key := EncodeToString (StringToByteSlice k) in
  Returns None {| mm := go_delete (mm u) key |}.

Definition Del `{Deriver} (u : t) (s : string) : outcome (option error) :=
  let b := repeat x00 HeaderLen in
  let b := GenKey s b in
  DelKey u (ByteSliceToString b).

(** [Range] returns the calls of [fn] it made, in order. *)
Definition Range (u : t) : outcome (list visit) :=
  Returns (map (fun kv => (fst kv, Up (snd kv), Down (snd kv))) (go_range (mm u))) u.

Definition Validate (u : t) (k : string) : outcome bool :=
  let k := if decide (len k ≠ AuthLen)
           then EncodeToString (StringToByteSlice k) else k in
  let '(_, ok) := go_index (mm u) k in
  Returns ok u.

Definition Consume (u : t) (k : string) (nr nw : Z) : outcome (option error) :=
  let k := if decide (len k ≠ AuthLen)
           then EncodeToString (StringToByteSlice k) else k in
  let traffic := fst (go_index (mm u) k) in
  let traffic := {| Up := int64_add (Up traffic) nr; Down := Down traffic |} in
  let traffic := {| Up := Up traffic; Down := int64_add (Down traffic) nw |} in
  match go_assign (mm u) k traffic with
  | Some m => Returns None {| mm := m |}
  | None => Panics
  end.

(** A client's call, its result dropped. *)
Definition forget {A} (o : outcome A) : outcome unit :=
  match o with
  | Returns _ u => Returns tt u
  | Panics => Panics
  end.

Definition exec `{Deriver} (u : t) (c : call) : outcome unit :=
  match c with
  | CallAdd s => forget (Add u s)
  | CallAddKey k => forget (AddKey u k)
  | CallDel s => forget (Del u s)
  | CallDelKey k => forget (DelKey u k)
  | CallRange => forget (Range u)
  | CallValidate k => forget (Validate u k)
  | CallConsume k nr nw => forget (Consume u k nr nw)
  end.

(** A sequence of calls; a panic ends it. *)
Fixpoint run `{Deriver} (u : t) (cs : list call) : outcome unit :=
  match cs with
  | [] => Returns tt u
  | c :: cs' =>
      match exec u c with
      | Returns _ u' => run u' cs'
      | Panics => Panics
      end
  end.

End MemoryUpstream.

(** ** certmagic.Storage, the logger and the visitor

    A method of the persistent backend is a program over the calls it
    makes to its collaborators: each constructor is one call, continued
    with the value the collaborator answers. *)

Inductive prog (R : Type) : Type :=
| Ret (r : R)
| DoExists (key : string) (k : bool -> prog R)
| DoStore (key : string) (value : list byte) (k : option error -> prog R)
| DoLoad (key : string) (k : list byte + error -> prog R)
| DoDelete (key : string) (k : option error -> prog R)
| DoList (prefix : string) (recursive : bool) (k : list string + error -> prog R)
| DoLock (key : string) (k : option error -> prog R)
| DoUnlock (key : string) (k : option error -> prog R)
| DoLoggerError (msg : string) (k : unit -> prog R)
| DoFn (key : string) (up down : Z) (k : unit -> prog R).
Arguments Ret {R} r.
Arguments DoExists {R} key k.
Arguments DoStore {R} key value k.
Arguments DoLoad {R} key k.
Arguments DoDelete {R} key k.
Arguments DoList {R} prefix recursive k.
Arguments DoLock {R} key k.
Arguments DoUnlock {R} key k.
Arguments DoLoggerError {R} msg k.
Arguments DoFn {R} key up down k.

Fixpoint bind {A B : Type} (p : prog A) (f : A -> prog B) : prog B :=
  match p with
  | Ret r => f r
  | DoExists key k => DoExists key (fun x => bind (k x) f)
  | DoStore key value k => DoStore key value (fun x => bind (k x) f)
  | DoLoad key k => DoLoad key (fun x => bind (k x) f)
  | DoDelete key k => DoDelete key (fun x => bind (k x) f)
  | DoList prefix recursive k => DoList prefix recursive (fun x => bind (k x) f)
  | DoLock key k => DoLock key (fun x => bind (k x) f)
  | DoUnlock key k => DoUnlock key (fun x => bind (k x) f)
  | DoLoggerError msg k => DoLoggerError msg (fun x => bind (k x) f)
  | DoFn key up down k => DoFn key up down (fun x => bind (k x) f)
  end.

#[global] Instance prog_ret : MRet prog := fun _ r => Ret r.
#[global] Instance prog_bind : MBind prog := fun _ _ f p => bind p f.

(** The calls, as the source writes them. *)
Module Storage.
Definition Exists (key : string) : prog bool := DoExists key Ret.
Definition Store (key : string) (value : list byte) : prog (option error) :=
  DoStore key value Ret.
Definition Load (key : string) : prog (list byte + error) := DoLoad key Ret.
Definition Delete (key : string) : prog (option error) := DoDelete key Ret.
Definition List (prefix : string) (recursive : bool) : prog (list string + error) :=
  DoList prefix recursive Ret.
Definition Lock (key : string) : prog (option error) := DoLock key Ret.
Definition Unlock (key : string) : prog (option error) := DoUnlock key Ret.
End Storage.

Module Logger.
Definition Error (msg : string) : prog unit := DoLoggerError msg Ret.
End Logger.

Definition fn (key : string) (up down : Z) : prog unit := DoFn key up down Ret.

(** [defer d] at the head of [body]: [d] runs once [body] has computed
    the value to return, on whichever path it did. *)
Definition defer {A B : Type} (d : prog B) (body : prog A) : prog A :=
  r ← body; _ ← d; mret r.

(** An implementation of the storage interface over a state [S]. *)
Class StorageImpl (S : Type) : Type :=
  { impl_Exists : string -> S -> bool * S;
    impl_Store : string -> list byte -> S -> option error * S;
    impl_Load : string -> S -> (list byte + error) * S;
    impl_Delete : string -> S -> option error * S;
    impl_List : string -> bool -> S -> (list string + error) * S;
    impl_Lock : string -> S -> option error * S;
    impl_Unlock : string -> S -> option error * S }.

(** What a run leaves behind: each call with its answer. *)
Inductive event : Type :=
| EvExists (key : string) (r : bool)
| EvStore (key : string) (value : list byte) (r : option error)
| EvLoad (key : string) (r : list byte + error)
| EvDelete (key : string) (r : option error)
| EvList (prefix : string) (recursive : bool) (r : list string + error)
| EvLock (key : string) (r : option error)
| EvUnlock (key : string) (r : option error)
| EvLoggerError (msg : string)
| EvFn (key : string) (up down : Z).

(** A run of a program against an implementation: the value returned,
    the storage left, the calls made. *)
Fixpoint run_prog {S : Type} `{StorageImpl S} {R : Type} (p : prog R) (s : S)
  : R * S * list event :=
  match p with
  | Ret r => (r, s, [])
  | DoExists key k =>
      let '(x, s1) := impl_Exists key s in
      let '(r, s2, tr) := run_prog (k x) s1 in (r, s2, EvExists key x :: tr)
  | DoStore key value k =>
      let '(x, s1) := impl_Store key value s in
      let '(r, s2, tr) := run_prog (k x) s1 in (r, s2, EvStore key value x :: tr)
  | DoLoad key k =>
      let '(x, s1) := impl_Load key s in
      let '(r, s2, tr) := run_prog (k x) s1 in (r, s2, EvLoad key x :: tr)
  | DoDelete key k =>
      let '(x, s1) := impl_Delete key s in
      let '(r, s2, tr) := run_prog (k x) s1 in (r, s2, EvDelete key x :: tr)
  | DoList prefix recursive k =>
      let '(x, s1) := impl_List prefix recursive s in
      let '(r, s2, tr) := run_prog (k x) s1 in
      (r, s2, EvList prefix recursive x :: tr)
  | DoLock key k =>
      let '(x, s1) := impl_Lock key s in
      let '(r, s2, tr) := run_prog (k x) s1 in (r, s2, EvLock key x :: tr)
  | DoUnlock key k =>
      let '(x, s1) := impl_Unlock key s in
      let '(r, s2, tr) := run_prog (k x) s1 in (r, s2, EvUnlock key x :: tr)
  | DoLoggerError msg k =>
      let '(r, s2, tr) := run_prog (k tt) s in (r, s2, EvLoggerError msg :: tr)
  | DoFn key up down k =>
      let '(r, s2, tr) := run_prog (k tt) s in (r, s2, EvFn key up down :: tr)
  end.

(** The calls of the visitor in a trace, in order. *)
Definition visits (tr : list event) : list visit :=
  omap (fun e => match e with EvFn k up down => Some (k, up, down) | _ => None end) tr.

(** The writes in a trace: calls of [Store] and [Delete]. *)
Definition is_write (e : event) : bool :=
  match e with
  | EvStore _ _ _ | EvDelete _ _ => true
  | _ => false
  end.

(** Modelled from the spec: the persistent storage collaborator
    ([certmagic.Storage] is an interface of a library outside the
    repository), as a table from keys to bytes with the set of locks
    held: [Exists] and [Load] read the table, [Load] of an absent key
    fails, [Store] and [Delete] write it, [List] gives the keys under a
    prefix, [Lock] and [Unlock] take and release the lock of a key. *)
Record table : Type :=
  { data : gmap string (list byte); held : gset string }.

Definition ErrNotExist : error := "file does not exist".

#[global] Instance table_impl : StorageImpl table :=
  {| impl_Exists key s := (bool_decide (is_Some (data s !! key)), s);
     impl_Store key value s :=
       (None, {| data := <[key := value]> (data s); held := held s |});
     impl_Load key s :=
       (match data s !! key with Some b => inl b | None => inr ErrNotExist end, s);
     impl_Delete key s :=
       (None, {| data := delete key (data s); held := held s |});
     impl_List prefix recursive s :=
       (inl (filter (fun k => String.prefix prefix k = true)
                    (map fst (map_to_list (data s)))), s);
     impl_Lock key s :=
       (None, {| data := data s; held := {[key]} ∪ held s |});
     impl_Unlock key s :=
       (None, {| data := data s; held := held s ∖ {[key]} |}) |}.

(** ** CaddyUpstream

    The fields [Storage] and [Logger] are the collaborators the programs
    call; what is left of the struct is its [Prefix]. *)

Module CaddyUpstream.

Record t : Type := { Prefix : string }.

Definition Provision (u : t) : t := {| Prefix := "trojan/" |}.

Definition AddKey `{Json} (u : t) (k : string) : prog (option error) :=
  let key := Prefix u +:+ EncodeToString (StringToByteSlice k) in
  ex ← Storage.Exists key;
  if ex : bool then mret None
  else
    let traffic := {| Up := 0; Down := 0 |} in
    match json_Marshal traffic with
    | inr err => mret (Some err)
    | inl b => Storage.Store key b
    end.

Definition Add `{Json} `{Deriver} (u : t) (s : string) : prog (option error) :=
  let b := repeat x00 HeaderLen in
  let b := GenKey s b in
  AddKey u (ByteSliceToString b).

Definition DelKey (u : t) (k : string) : prog (option error) :=
  let key := Prefix u +:+ EncodeToString (StringToByteSlice k) in
  ex ← Storage.Exists key;
  if negb ex then mret None
  else Storage.Delete key.

Definition Del `{Deriver} (u : t) (s : string) : prog (option error) :=
  let b := repeat x00 HeaderLen in
  let b := GenKey s b in
  DelKey u (ByteSliceToString b).

(** The body of the loop of [Range]; [traffic] is declared before the
    loop and every iteration decodes into it. *)
Fixpoint Range_loop `{Json} (u : t) (keys : list string) (traffic : Traffic)
  : prog unit :=
  match keys with
  | [] => mret tt
  | k :: keys' =>
      r ← Storage.Load k;
      match r with
      | inr err =>
          _ ← Logger.Error ("load user error: " +:+ err);
          Range_loop u keys' traffic
      | inl b =>
          let '(traffic, err) := json_Unmarshal b traffic in
          match err with
          | Some err =>
              _ ← Logger.Error ("load user error: " +:+ err);
              Range_loop u keys' traffic
          | None =>
              _ ← fn (TrimPrefix k (Prefix u)) (Up traffic) (Down traffic);
              Range_loop u keys' traffic
          end
      end
  end.

Definition Range `{Json} (u : t) : prog unit :=
  r ← Storage.List (Prefix u) false;
  match r with
  | inr _ => mret tt
  | inl keys =>
      let traffic := Traffic_zero in
      Range_loop u keys traffic
  end.

Definition Validate (u : t) (k : string) : prog bool :=
  let k := if decide (len k = AuthLen)
           then Prefix u +:+ k
           else Prefix u +:+ EncodeToString (StringToByteSlice k) in
  Storage.Exists k.

Definition Consume `{Json} (u : t) (k : string) (nr nw : Z) : prog (option error) :=
  let k := if decide (len k = AuthLen)
           then Prefix u +:+ k
           else Prefix u +:+ EncodeToString (StringToByteSlice k) in
  _ ← Storage.Lock k;
  defer (Storage.Unlock k)
    (r ← Storage.Load k;
     match r with
     | inr err => mret (Some err)
     | inl b =>
         let traffic := Traffic_zero in
         let '(traffic, err) := json_Unmarshal b traffic in
         match err with
         | Some err => mret (Some err)
         | None =>
             let traffic := {| Up := int64_add (Up traffic) nr; Down := Down traffic |} in
             let traffic := {| Up := Up traffic; Down := int64_add (Down traffic) nw |} in
             match json_Marshal traffic with
             | inr err => mret (Some err)
             | inl b => Storage.Store k b
             end
         end
     end).

(** A client's call, its result dropped. *)
Definition exec `{Json} `{Deriver} (u : t) (c : call) : prog unit :=
  match c with
  | CallAdd s => _ ← Add u s; mret tt
  | CallAddKey k => _ ← AddKey u k; mret tt
  | CallDel s => _ ← Del u s; mret tt
  | CallDelKey k => _ ← DelKey u k; mret tt
  | CallRange => Range u
  | CallValidate k => _ ← Validate u k; mret tt
  | CallConsume k nr nw => _ ← Consume u k nr nw; mret tt
  end.

Fixpoint run `{Json} `{Deriver} (u : t) (cs : list call) : prog unit :=
  match cs with
  | [] => mret tt
  | c :: cs' => _ ← exec u c; run u cs'
  end.

End CaddyUpstream.

(** The persistent backend once provisioned, and a storage that holds
    nothing. *)
Definition trojan_upstream : CaddyUpstream.t :=
  CaddyUpstream.Provision {| CaddyUpstream.Prefix := EmptyString |}.

Definition empty_table : table := {| data := ∅; held := ∅ |}.

(** ** What the statements are about *)

(** The derived key of a secret: what [Add] and [Del] pass on. *)
Definition derived_key `{Deriver} (s : string) : string :=
  ByteSliceToString (GenKey s (repeat x00 HeaderLen)).

(** The canonical key of a secret: the key its entry is stored under. *)
Definition canonical_key `{Deriver} (s : string) : string :=
  EncodeToString (StringToByteSlice (derived_key s)).

(** The key [Validate] and [Consume] look an argument up under: the
    argument itself when it has the canonical length, its encoding
    otherwise. *)
Definition lookup_key (k : string) : string :=
  if decide (len k = AuthLen) then k else EncodeToString (StringToByteSlice k).

(** The calls that assign to an entry of the map. *)
Definition assigns (c : call) : bool :=
  match c with
  | CallAdd _ | CallAddKey _ | CallConsume _ _ _ => true
  | _ => false
  end.

(** The table after the lock of [key] was taken and released. *)
Definition relocked (key : string) (tb : table) : table :=
  {| data := data tb; held := ({[key]} ∪ held tb) ∖ {[key]} |}.


(** The calls that create, or create again, the entry under [key]. *)
Definition creates `{Deriver} (key : string) (c : call) : bool :=
  match c with
  | CallAdd s => bool_decide (canonical_key s = key)
  | CallAddKey k => bool_decide (EncodeToString (StringToByteSlice k) = key)
  | _ => false
  end.

(** The calls that delete the entry under [key]. *)
Definition deletes `{Deriver} (key : string) (c : call) : bool :=
  match c with
  | CallDel s => bool_decide (canonical_key s = key)
  | CallDelKey k => bool_decide (EncodeToString (StringToByteSlice k) = key)
  | _ => false
  end.

Definition nonneg_deltas (c : call) : bool :=
  match c with
  | CallConsume _ nr nw => (0 <=? nr) && (0 <=? nw)
  | _ => true
  end.

(** What a call adds to the counters of the entry under [key]. *)
Definition consumed (key : string) (c : call) : Z * Z :=
  match c with
  | CallConsume k nr nw => if decide (lookup_key k = key) then (nr, nw) else (0, 0)
  | _ => (0, 0)
  end.

Definition consumed_up (key : string) (cs : list call) : Z :=
  foldr (fun c acc => fst (consumed key c) + acc) 0 cs.

Definition consumed_down (key : string) (cs : list call) : Z :=
  foldr (fun c acc => snd (consumed key c) + acc) 0 cs.

(** The allocated table after a call of the in-memory backend. *)
Definition mem_step `{Deriver} (c : call) (m : gmap string Traffic)
  : gmap string Traffic :=
  match c with
  | CallAdd s => <[canonical_key s := Traffic_zero]> m
  | CallAddKey k => <[EncodeToString (StringToByteSlice k) := Traffic_zero]> m
  | CallDel s => delete (canonical_key s) m
  | CallDelKey k => delete (EncodeToString (StringToByteSlice k)) m
  | CallRange | CallValidate _ => m
  | CallConsume k nr nw =>
      let cur := default Traffic_zero (m !! lookup_key k) in
      <[lookup_key k := {| Up := int64_add (Up cur) nr;
                           Down := int64_add (Down cur) nw |}]> m
  end.

(** The table holds the record [t] under [key]: the bytes stored there
    decode to [t]. *)
Definition holds `{Json} (u : CaddyUpstream.t) (tb : table) (key : string)
    (t : Traffic) : Prop :=
  exists b, data tb !! (CaddyUpstream.Prefix u +:+ key) = Some b
            /\ forall cur, json_Unmarshal b cur = (t, None).

(** The storage a run leaves. *)
Definition state_after {S : Type} `{StorageImpl S} {R : Type} (p : prog R) (s : S) : S :=
  snd (fst (run_prog p s)).

(** The entry a call works on: none for [Range]. *)
Definition target_key `{Deriver} (c : call) : option string :=
  match c with
  | CallAdd s | CallDel s => Some (canonical_key s)
  | CallAddKey k | CallDelKey k => Some (EncodeToString (StringToByteSlice k))
  | CallValidate k | CallConsume k _ _ => Some (lookup_key k)
  | CallRange => None
  end.

(** The storage key an event names, for the calls that name one. *)
Definition event_key (e : event) : option string :=
  match e with
  | EvExists key _ | EvStore key _ _ | EvLoad key _ | EvDelete key _
  | EvLock key _ | EvUnlock key _ => Some key
  | EvList _ _ _ | EvLoggerError _ | EvFn _ _ _ => None
  end.

Definition is_lock (e : event) : bool :=
  match e with
  | EvLock _ _ | EvUnlock _ _ => true
  | _ => false
  end.

(** Every call a program can make, whatever the collaborators answer,
    satisfies [P]. *)
Fixpoint prog_events (P : event -> Prop) {R : Type} (p : prog R) : Prop :=
  match p with
  | Ret _ => True
  | DoExists key k => forall x, P (EvExists key x) /\ prog_events P (k x)
  | DoStore key value k => forall x, P (EvStore key value x) /\ prog_events P (k x)
  | DoLoad key k => forall x, P (EvLoad key x) /\ prog_events P (k x)
  | DoDelete key k => forall x, P (EvDelete key x) /\ prog_events P (k x)
  | DoList prefix recursive k =>
      forall x, P (EvList prefix recursive x) /\ prog_events P (k x)
  | DoLock key k => forall x, P (EvLock key x) /\ prog_events P (k x)
  | DoUnlock key k => forall x, P (EvUnlock key x) /\ prog_events P (k x)
  | DoLoggerError msg k => P (EvLoggerError msg) /\ prog_events P (k tt)
  | DoFn key up down k => P (EvFn key up down) /\ prog_events P (k tt)
  end.

(** The calls a method of the persistent backend makes: which
    collaborator, on which key. *)
Definition allowed `{Deriver} (u : CaddyUpstream.t) (c : call) (e : event) : Prop :=
  match c, e with
  | (CallAdd _ | CallAddKey _), (EvExists key _ | EvStore key _ _)
  | (CallDel _ | CallDelKey _), (EvExists key _ | EvDelete key _)
  | CallValidate _, EvExists key _
  | CallConsume _ _ _, (EvLock key _ | EvLoad key _ | EvStore key _ _ | EvUnlock key _) =>
      Some key = option_map (String.append (CaddyUpstream.Prefix u)) (target_key c)
  | CallRange, EvList prefix recursive _ =>
      prefix = CaddyUpstream.Prefix u /\ recursive = false
  | CallRange, (EvLoad _ _ | EvLoggerError _ | EvFn _ _ _) => True
  | _, _ => False
  end.

(** The lock discipline, as an automaton over the calls of a run: the
    state is the key whose lock is held, if any. A lock is taken only
    when none is held, and released only by its own key; while it is held
    the storage is asked about that key only, and neither the visitor nor
    the logger is called. [None] is a violation. *)
Definition lock_step (held : option string) (e : event) : option (option string) :=
  match e, held with
  | EvLock k _, None => Some (Some k)
  | EvLock _ _, Some _ => None
  | EvUnlock k _, Some k' => if decide (k = k') then Some None else None
  | EvUnlock _ _, None => None
  | (EvExists k _ | EvStore k _ _ | EvLoad k _ | EvDelete k _), Some k' =>
      if decide (k = k') then Some held else None
  | (EvList _ _ _ | EvLoggerError _ | EvFn _ _ _), Some _ => None
  | _, None => Some None
  end.

Fixpoint lock_run (held : option string) (tr : list event) : option (option string) :=
  match tr with
  | [] => Some held
  | e :: tr' =>
      match lock_step held e with
      | Some held' => lock_run held' tr'
      | None => None
      end
  end.

(** A program keeps the discipline from the state [held], whatever the
    collaborators answer, and returns with no lock held. *)
Fixpoint prog_locks (held : option string) {R : Type} (p : prog R) : Prop :=
  let next e (k : prog R) :=
    match lock_step held e with
    | Some held' => prog_locks held' k
    | None => False
    end in
  match p with
  | Ret _ => held = None
  | DoExists key k => forall x, next (EvExists key x) (k x)
  | DoStore key value k => forall x, next (EvStore key value x) (k x)
  | DoLoad key k => forall x, next (EvLoad key x) (k x)
  | DoDelete key k => forall x, next (EvDelete key x) (k x)
  | DoList prefix recursive k => forall x, next (EvList prefix recursive x) (k x)
  | DoLock key k => forall x, next (EvLock key x) (k x)
  | DoUnlock key k => forall x, next (EvUnlock key x) (k x)
  | DoLoggerError msg k => next (EvLoggerError msg) (k tt)
  | DoFn key up down k => next (EvFn key up down) (k tt)
  end.

(** The position of a character in the standard alphabet (64 when it is
    not there). *)
Fixpoint index_in (c : ascii) (s : string) (i : N) : N :=
  match s with
  | EmptyString => i
  | String a s' => if Ascii.eqb a c then i else index_in c s' (i + 1)
  end.

Definition b64index (c : ascii) : N := index_in c encodeStd 0.

(** The two ledgers agree: an entry of the in-memory table is a record
    of the persistent table under the prefixed key, with counters in the
    range of [int64], and where the in-memory table has no entry the
    persistent table has no key. *)
Definition agree `{Json} (u : CaddyUpstream.t) (m : gmap string Traffic)
    (tb : table) : Prop :=
  forall key,
    match m !! key with
    | Some t => holds u tb key t /\ int64_range (Up t) /\ int64_range (Down t)
    | None => data tb !! (CaddyUpstream.Prefix u +:+ key) = None
    end.

(** The calls on which the two backends are written alike: all but
    [AddKey] and [Add] on an entry that exists (in memory it is reset,
    in the persistent backend it is kept) and [Consume] on an entry that
    does not (in memory it is created, in the persistent backend the
    call fails). *)
Definition shared `{Deriver} (m : gmap string Traffic) (c : call) : bool :=
  match c with
  | CallAdd s => bool_decide (m !! canonical_key s = None)
  | CallAddKey k => bool_decide (m !! EncodeToString (StringToByteSlice k) = None)
  | CallConsume k _ _ => bool_decide (is_Some (m !! lookup_key k))
  | _ => true
  end.

Fixpoint shared_run `{Deriver} (m : gmap string Traffic) (cs : list call) : bool :=
  match cs with
  | [] => true
  | c :: cs' => shared m c && shared_run (mem_step c m) cs'
  end.

(** The text realization with a decoder that also accepts the empty
    object: it sets no member, and the record it was given is left as
    it was. *)
Definition Unmarshal_lenient (b : list byte) (cur : Traffic) : Traffic * option error :=
  if String.eqb (string_of_list_byte b) "{}" then (cur, None)
  else JsonText.Unmarshal b cur.

Definition json_lenient : Json :=
  {| json_Marshal := JsonText.Marshal; json_Unmarshal := Unmarshal_lenient |}.

(** ** MemoryUpstream with its mutex

    The methods of [MemoryUpstream] again, statement by statement, now
    with the field [mu] and with what a method leaves when it does not
    return. One goroutine makes the calls, so a [Lock] that finds the
    mutex held waits for ever: the holder is the caller itself. *)

Module RWMutex.

(** [sync.RWMutex]: held by one writer, or by a number of readers. *)
Record t : Type := { writer : bool; readers : nat }.

Definition zero : t := {| writer := false; readers := 0 |}.

(** A call on the mutex goes through, waits, or is a fatal error of the
    run time (an unlock of a mutex that is not locked). *)
Inductive attempt : Type :=
| Through (m : t)
| Wait
| Throw.

Definition Lock (m : t) : attempt :=
  if writer m then Wait
  else match readers m with
       | O => Through {| writer := true; readers := 0 |}
       | S _ => Wait
       end.

Definition Unlock (m : t) : attempt :=
  if writer m then Through {| writer := false; readers := readers m |} else Throw.

Definition RLock (m : t) : attempt :=
  if writer m then Wait else Through {| writer := false; readers := S (readers m) |}.

Definition RUnlock (m : t) : attempt :=
  match readers m with
  | O => Throw
  | S n => Through {| writer := writer m; readers := n |}
  end.

End RWMutex.

Module LockedMemoryUpstream.

Record t : Type := { mu : RWMutex.t; mm : option (gmap string Traffic) }.

Definition New : t := {| mu := RWMutex.zero; mm := None |}.

(** A method returns a value, panics, waits for ever on the mutex, or
    stops the program. A panic keeps the state it happened in: no method
    defers its unlock. *)
Inductive result (A : Type) : Type :=
| Done (a : A) (u : t)
| Panic (u : t)
| Waits
| Fatal.
Arguments Done {A} a u.
Arguments Panic {A} u.
Arguments Waits {A}.
Arguments Fatal {A}.

Definition M (A : Type) : Type := t -> result A.

#[global] Instance M_ret : MRet M := fun _ a u => Done a u.
#[global] Instance M_bind : MBind M := fun _ _ f m u =>
  match m u with
  | Done a u' => f a u'
  | Panic u' => Panic u'
  | Waits => Waits
  | Fatal => Fatal
  end.

(** The statements of the methods. *)
Definition on_mu (op : RWMutex.t -> RWMutex.attempt) : M unit := fun u =>
  match op (mu u) with
  | RWMutex.Through m => Done tt {| mu := m; mm := mm u |}
  | RWMutex.Wait => Waits
  | RWMutex.Throw => Fatal
  end.

Definition index (k : string) : M (Traffic * bool) := fun u =>
  Done (go_index (mm u) k) u.

Definition assign (k : string) (v : Traffic) : M unit := fun u =>
  match go_assign (mm u) k v with
  | Some m => Done tt {| mu := mu u; mm := m |}
  | None => Panic u
  end.

Definition delete (k : string) : M unit := fun u =>
  Done tt {| mu := mu u; mm := go_delete (mm u) k |}.

Definition entries : M (list (string * Traffic)) := fun u =>
  Done (go_range (mm u)) u.

Definition AddKey (k : string) : M (option error) :=
  let key := EncodeToString (StringToByteSlice k) in
  _ ← on_mu RWMutex.Lock;
  _ ← assign key {| Up := 0; Down := 0 |};
  _ ← on_mu RWMutex.Unlock;
  mret None.

Definition Add `{Deriver} (s : string) : M (option error) :=
  let b := repeat x00 HeaderLen in
  let b := GenKey s b in
  AddKey (ByteSliceToString b).

Definition DelKey (k : string) : M (option error) :=
  let key := EncodeToString (StringToByteSlice k) in
  _ ← on_mu RWMutex.Lock;
  _ ← delete key;
  _ ← on_mu RWMutex.Unlock;
  mret None.

Definition Del `{Deriver} (s : string) : M (option error) :=
  let b := repeat x00 HeaderLen in
  let b := GenKey s b in
  DelKey (ByteSliceToString b).

(** The loop of [Range]: [fn] is called with the mutex held for reading. *)
Fixpoint Range_loop (fn : string -> Z -> Z -> M unit) (kvs : list (string * Traffic))
  : M unit :=
  match kvs with
  | [] => mret tt
  | (k, v) :: kvs' => _ ← fn k (Up v) (Down v); Range_loop fn kvs'
  end.

Definition Range (fn : string -> Z -> Z -> M unit) : M unit :=
  _ ← on_mu RWMutex.RLock;
  kvs ← entries;
  _ ← Range_loop fn kvs;
  _ ← on_mu RWMutex.RUnlock;
  mret tt.

Definition Validate (k : string) : M bool :=
  let k := if decide (len k ≠ AuthLen)
           then EncodeToString (StringToByteSlice k) else k in
  _ ← on_mu RWMutex.RLock;
  r ← index k;
  _ ← on_mu RWMutex.RUnlock;
  mret (snd r).

Definition Consume (k : string) (nr nw : Z) : M (option error) :=
  let k := if decide (len k ≠ AuthLen)
           then EncodeToString (StringToByteSlice k) else k in
  _ ← on_mu RWMutex.Lock;
  r ← index k;
  let traffic := fst r in
  let traffic := {| Up := int64_add (Up traffic) nr; Down := Down traffic |} in
  let traffic := {| Up := Up traffic; Down := int64_add (Down traffic) nw |} in
  _ ← assign k traffic;
  _ ← on_mu RWMutex.Unlock;
  mret None.

(** A client's call, its result dropped; the visitor of [Range] is one
    that returns at once. *)
Definition exec `{Deriver} (c : call) : M unit :=
  match c with
  | CallAdd s => _ ← Add s; mret tt
  | CallAddKey k => _ ← AddKey k; mret tt
  | CallDel s => _ ← Del s; mret tt
  | CallDelKey k => _ ← DelKey k; mret tt
  | CallRange => Range (fun _ _ _ => mret tt)
  | CallValidate k => _ ← Validate k; mret tt
  | CallConsume k nr nw => _ ← Consume k nr nw; mret tt
  end.

End LockedMemoryUpstream.

(** The methods with the mutex and the methods without it do the same:
    the same value returned, the same map left, and the mutex free again;
    or a panic on both sides. *)
Definition same_outcome {A : Type} (r : LockedMemoryUpstream.result A)
    (o : MemoryUpstream.outcome A) : Prop :=
  match r, o with
  | LockedMemoryUpstream.Done a u, MemoryUpstream.Returns a' u' =>
      a = a' /\ LockedMemoryUpstream.mm u = MemoryUpstream.mm u'
      /\ LockedMemoryUpstream.mu u = RWMutex.zero
  | LockedMemoryUpstream.Panic _, MemoryUpstream.Panics => True
  | _, _ => False
  end.

(** The methods that take the mutex for writing. *)
Definition writes (c : call) : bool :=
  match c with
  | CallRange | CallValidate _ => false
  | _ => true
  end.

(** * Properties *)

(** ** The collaborators on known values *)

Example b64_1 : EncodeToString (StringToByteSlice "a") = "YQ=="%string.
Proof. reflexivity. Qed.

Example b64_2 : EncodeToString (StringToByteSlice "Test1234") = "VGVzdDEyMzQ="%string.
Proof. reflexivity. Qed.

Example b64_3 : EncodeToString (StringToByteSlice "foobar") = "Zm9vYmFy"%string.
Proof. reflexivity. Qed.

Example sha224_constants :
  length Sha224.K = 64%nat
  /\ nth 0 Sha224.K 0%N = 0x428a2f98%N /\ nth 63 Sha224.K 0%N = 0xc67178f2%N
  /\ Sha224.h0 Sha224.init224 = 0xc1059ed8%N
  /\ Sha224.h7 Sha224.init224 = 0xbefa4fa4%N.
Proof. vm_compute. repeat split; reflexivity. Qed.

Example sha224_abc :
  ByteSliceToString (hex_Encode (Sha224.Sum224 (StringToByteSlice "abc")))
  = "23097d223405d8228642a477bda255b32aadbce4bda0b3f7e36c9da7"%string.
Proof. vm_compute. reflexivity. Qed.

Example json_zero :
  option_map string_of_list_byte
    (match JsonText.Marshal Traffic_zero with inl b => Some b | inr _ => None end)
  = Some (String "{" (String JsonText.dq ("up" +:+ String JsonText.dq (":0," +:+
      String JsonText.dq ("down" +:+ String JsonText.dq ":0}"))))).
Proof. reflexivity. Qed.

Example json_parse_1 :
  match JsonText.Marshal {| Up := 15; Down := -20 |} with
  | inl b => JsonText.Unmarshal b Traffic_zero
  | inr _ => (Traffic_zero, None)
  end = ({| Up := 15; Down := -20 |}, None).
Proof. vm_compute. reflexivity. Qed.

(** ** Strings and bytes *)

Lemma length_string_app (a b : string) :
  String.length (a +:+ b) = (String.length a + String.length b)%nat.
Proof. induction a as [|c a IH]; simpl; [reflexivity | now rewrite IH]. Qed.

Lemma string_app_cons (c : ascii) (a b : string) :
  String c a +:+ b = String c (a +:+ b).
Proof. reflexivity. Qed.

Lemma prefix_app (p s : string) : String.prefix p (p +:+ s) = true.
Proof.
  induction p as [|c p IH]; simpl; [now destruct s |].
  destruct (ascii_dec c c); [exact IH | congruence].
Qed.

Lemma drop_string_app (p s : string) : drop_string (String.length p) (p +:+ s) = s.
Proof. induction p as [|c p IH]; simpl; [reflexivity | exact IH]. Qed.

Lemma TrimPrefix_app (p s : string) : TrimPrefix (p +:+ s) p = s.
Proof. unfold TrimPrefix. now rewrite prefix_app, drop_string_app. Qed.

Lemma length_list_byte_of_string (s : string) :
  length (list_byte_of_string s) = String.length s.
Proof.
  unfold list_byte_of_string. rewrite length_map.
  induction s as [|c s IH]; simpl; [reflexivity | now rewrite IH].
Qed.

Lemma length_string_of_list_byte (b : list byte) :
  String.length (string_of_list_byte b) = length b.
Proof.
  rewrite <- (list_byte_of_string_of_list_byte b) at 2.
  now rewrite length_list_byte_of_string.
Qed.

(** Induction on a list three elements at a time, as [EncodeToString]
    consumes it. *)
Lemma list_ind3 {A : Type} (P : list A -> Prop) :
  P [] -> (forall a, P [a]) -> (forall a b, P [a; b]) ->
  (forall a b c l, P l -> P (a :: b :: c :: l)) ->
  forall l, P l.
Proof.
  intros H0 H1 H2 H3 l.
  assert (Hall : P l /\ (forall a, P (a :: l)) /\ (forall a b, P (a :: b :: l))).
  { induction l as [|x l (IH0 & IH1 & IH2)]; [now auto |].
    split; [apply IH1 |]. split; [intros a; apply IH2 |].
    intros a b; apply H3, IH0. }
  exact (proj1 Hall).
Qed.

(** The length of a base64 encoding: four characters for every three
    bytes, the last group padded. *)
Lemma length_EncodeToString (src : list byte) :
  String.length (EncodeToString src) = (4 * ((length src + 2) / 3))%nat.
Proof.
  induction src as [| a | a b | a b c l IH] using list_ind3; try reflexivity.
  change (String.length (EncodeToString (a :: b :: c :: l)))
    with (S (S (S (S (String.length (EncodeToString l)))))).
  rewrite IH. simpl length.
  replace (S (S (S (length l))) + 2)%nat with (length l + 2 + 1 * 3)%nat by lia.
  rewrite Nat.div_add by lia. lia.
Qed.

Lemma len_base64 (k : string) :
  len (EncodeToString (StringToByteSlice k)) = (4 * ((len k + 2) / 3))%nat.
Proof.
  unfold len, StringToByteSlice.
  now rewrite length_EncodeToString, length_list_byte_of_string.
Qed.


(** ** Key derivation *)

Lemma length_GenKey `{Deriver} (s : string) (key : list byte) :
  length (GenKey s key) = length key.
Proof.
  unfold GenKey. rewrite length_take, length_app, length_drop. lia.
Qed.

Lemma len_derived_key `{Deriver} (s : string) : len (derived_key s) = HeaderLen.
Proof.
  unfold len, derived_key, ByteSliceToString.
  now rewrite length_string_of_list_byte, length_GenKey, repeat_length.
Qed.

Lemma len_canonical_key `{Deriver} (s : string) : len (canonical_key s) = AuthLen.
Proof. unfold canonical_key. rewrite len_base64, len_derived_key. reflexivity. Qed.

(** ** int64 *)

Lemma wrap64_range (z : Z) : int64_range (wrap64 z).
Proof.
  unfold int64_range, wrap64, int64_min, int64_max.
  pose proof (Z.mod_pos_bound (z + 2 ^ 63) (2 ^ 64) ltac:(lia)). lia.
Qed.

Lemma wrap64_id (z : Z) : int64_range z -> wrap64 z = z.
Proof.
  unfold int64_range, wrap64, int64_min, int64_max. intros Hz.
  rewrite Z.mod_small by lia. lia.
Qed.

Lemma int64_add_exact (a b : Z) : int64_range (a + b) -> int64_add a b = a + b.
Proof. apply wrap64_id. Qed.

(** ** The record's serialization round-trips *)

Module JsonTextFacts.
Import JsonText.

Lemma strip_prefix_app (p s : string) : strip_prefix p (p +:+ s) = Some s.
Proof. unfold strip_prefix. now rewrite prefix_app, drop_string_app. Qed.

Lemma span_num_stop (c : ascii) (r : string) :
  is_num_char c = false -> span_num (String c r) = (EmptyString, String c r).
Proof. intros Hc. simpl. now rewrite Hc. Qed.

Lemma span_num_uint (d : Decimal.uint) (c : ascii) (r : string) :
  is_num_char c = false ->
  span_num (NilEmpty.string_of_uint d +:+ String c r)
  = (NilEmpty.string_of_uint d, String c r).
Proof.
  intros Hc. induction d as [| d IH | d IH | d IH | d IH | d IH | d IH
                             | d IH | d IH | d IH | d IH];
    [now apply span_num_stop | ..];
    cbn [NilEmpty.string_of_uint]; rewrite string_app_cons;
    cbn [span_num]; rewrite IH; reflexivity.
Qed.

Lemma span_num_dec (z : Z) (c : ascii) (r : string) :
  is_num_char c = false ->
  span_num (dec z +:+ String c r) = (dec z, String c r).
Proof.
  intros Hc. unfold dec.
  assert (Hu : forall d, span_num (NilZero.string_of_uint d +:+ String c r)
                         = (NilZero.string_of_uint d, String c r)).
  { intros d. destruct d; try apply (span_num_uint _ c r Hc).
    cbn [NilZero.string_of_uint]. rewrite string_app_cons. cbn [span_num].
    change (EmptyString +:+ String c r) with (String c r).
    rewrite (span_num_stop c r Hc). reflexivity. }
  destruct (Z.to_int z) as [d | d]; cbn [NilZero.string_of_int]; [apply Hu |].
  rewrite string_app_cons. cbn [span_num]. change (is_num_char "-") with true.
  cbv iota. rewrite Hu. reflexivity.
Qed.

Lemma parse_int64_dec (z : Z) : int64_range z -> parse_int64 (dec z) = Some z.
Proof.
  intros [Hlo Hhi]. unfold parse_int64, dec.
  rewrite NilZero.isi.
  - rewrite DecimalZ.of_to.
    destruct (Z.leb_spec int64_min z); [| lia].
    destruct (Z.leb_spec z int64_max); [reflexivity | lia].
  - destruct z; simpl; try congruence.
    intros Heq. injection Heq. apply DecimalPos.Unsigned.to_uint_nonnil.
  - destruct z; simpl; try congruence.
    intros Heq. injection Heq. apply DecimalPos.Unsigned.to_uint_nonnil.
Qed.

Lemma parse_Marshal (t : Traffic) :
  int64_range (Up t) -> int64_range (Down t) ->
  parse (up_open +:+ dec (Up t) +:+ down_open +:+ dec (Down t) +:+ "}") = Some t.
Proof.
  intros Hu Hd. unfold parse.
  rewrite strip_prefix_app.
  change (down_open +:+ dec (Down t) +:+ "}")
    with (String "," (String dq ("down" +:+ String dq ":") +:+ dec (Down t) +:+ "}")).
  rewrite span_num_dec by reflexivity.
  rewrite (parse_int64_dec _ Hu).
  change (String "," (String dq ("down" +:+ String dq ":") +:+ dec (Down t) +:+ "}"))
    with (down_open +:+ dec (Down t) +:+ "}").
  rewrite strip_prefix_app.
  change (dec (Down t) +:+ "}") with (dec (Down t) +:+ String "}" EmptyString).
  rewrite span_num_dec by reflexivity.
  rewrite (parse_int64_dec _ Hd). simpl. now destruct t.
Qed.

(** The text realization satisfies the round-trip requirement. *)
Lemma json_text_round_trip : @JsonRoundTrip json.
Proof.
  intros t cur Hu Hd. eexists. split; [reflexivity |].
  cbn [json_Unmarshal json]. unfold Unmarshal.
  rewrite string_of_list_byte_of_string, parse_Marshal by assumption.
  reflexivity.
Qed.

End JsonTextFacts.

(** ** The in-memory ledger *)

Section Memory.
Import MemoryUpstream.
Context `{Deriver}.

Lemma go_index_alloc (m : gmap string Traffic) (k : string) :
  go_index (Some m) k
  = (default Traffic_zero (m !! k), bool_decide (is_Some (m !! k))).
Proof.
  unfold go_index. destruct (m !! k); reflexivity.
Qed.

Lemma lookup_key_ne (k : string) :
  (if decide (len k ≠ AuthLen) then EncodeToString (StringToByteSlice k) else k)
  = lookup_key k.
Proof.
  unfold lookup_key.
  destruct (decide (len k ≠ AuthLen)), (decide (len k = AuthLen));
    try reflexivity; contradiction.
Qed.

Lemma Validate_alloc (m : gmap string Traffic) (k : string) :
  Validate {| mm := Some m |} k
  = Returns (bool_decide (is_Some (m !! lookup_key k))) {| mm := Some m |}.
Proof.
  unfold Validate. rewrite lookup_key_ne. cbn [mm].
  now rewrite go_index_alloc.
Qed.

Lemma Consume_alloc (m : gmap string Traffic) (k : string) (nr nw : Z) :
  Consume {| mm := Some m |} k nr nw
  = Returns None
      {| mm := Some (<[lookup_key k :=
                         {| Up := int64_add (Up (default Traffic_zero (m !! lookup_key k))) nr;
                            Down := int64_add (Down (default Traffic_zero (m !! lookup_key k))) nw |}]> m) |}.
Proof.
  unfold Consume. rewrite lookup_key_ne. cbn [mm].
  now rewrite go_index_alloc.
Qed.

Lemma AddKey_alloc (m : gmap string Traffic) (k : string) :
  AddKey {| mm := Some m |} k
  = Returns None {| mm := Some (<[EncodeToString (StringToByteSlice k) := Traffic_zero]> m) |}.
Proof. reflexivity. Qed.

Lemma DelKey_alloc (m : gmap string Traffic) (k : string) :
  DelKey {| mm := Some m |} k
  = Returns None {| mm := Some (delete (EncodeToString (StringToByteSlice k)) m) |}.
Proof. reflexivity. Qed.

Lemma Add_alloc (m : gmap string Traffic) (s : string) :
  Add {| mm := Some m |} s
  = Returns None {| mm := Some (<[canonical_key s := Traffic_zero]> m) |}.
Proof. reflexivity. Qed.

Lemma Del_alloc (m : gmap string Traffic) (s : string) :
  Del {| mm := Some m |} s
  = Returns None {| mm := Some (delete (canonical_key s) m) |}.
Proof. reflexivity. Qed.

Lemma exec_New (c : call) :
  exec New c = if assigns c then Panics else Returns tt New.
Proof. destruct c; reflexivity. Qed.

(** C2: on the value the module constructor returns, whose map is nil,
    [AddKey] and [Consume] (and [Add], which calls [AddKey]) panic on the
    assignment, while [DelKey], [Del], [Validate] and [Range] return
    normally and leave the value as it was; no call allocates the map: a
    sequence of calls from the fresh value panics if one of them assigns,
    and otherwise ends in the fresh value. *)
Theorem C2_nil_map (k s : string) (nr nw : Z) (cs : list call) :
  mm New = None /\
  AddKey New k = Panics /\
  Consume New k nr nw = Panics /\
  Add New s = Panics /\
  DelKey New k = Returns None New /\
  Del New s = Returns None New /\
  Validate New k = Returns false New /\
  Range New = Returns [] New /\
  run New cs = if existsb assigns cs then Panics else Returns tt New.
Proof.
  repeat split; try reflexivity.
  induction cs as [|c cs IH]; [reflexivity |].
  cbn [run existsb]. rewrite exec_New.
  destruct (assigns c); [reflexivity | exact IH].
Qed.



End Memory.



(** ** Runs of programs *)

Lemma run_prog_bind {S : Type} `{StorageImpl S} {A B : Type}
    (p : prog A) (f : A -> prog B) (s : S) :
  run_prog (bind p f) s
  = let '(a, s1, tr1) := run_prog p s in
    let '(b, s2, tr2) := run_prog (f a) s1 in
    (b, s2, tr1 ++ tr2).
Proof.
  revert s. induction p as [r | key k IH | key value k IH | key k IH | key k IH
                            | prefix recursive k IH | key k IH | key k IH
                            | msg k IH | key up down k IH]; intros s; cbn [bind run_prog].
  - destruct (run_prog (f r) s) as [[b s2] tr2]. reflexivity.
  - destruct (impl_Exists key s) as [x s1]. rewrite IH.
    destruct (run_prog (k x) s1) as [[a s2] tr1].
    destruct (run_prog (f a) s2) as [[b s3] tr2]. reflexivity.
  - destruct (impl_Store key value s) as [x s1]. rewrite IH.
    destruct (run_prog (k x) s1) as [[a s2] tr1].
    destruct (run_prog (f a) s2) as [[b s3] tr2]. reflexivity.
  - destruct (impl_Load key s) as [x s1]. rewrite IH.
    destruct (run_prog (k x) s1) as [[a s2] tr1].
    destruct (run_prog (f a) s2) as [[b s3] tr2]. reflexivity.
  - destruct (impl_Delete key s) as [x s1]. rewrite IH.
    destruct (run_prog (k x) s1) as [[a s2] tr1].
    destruct (run_prog (f a) s2) as [[b s3] tr2]. reflexivity.
  - destruct (impl_List prefix recursive s) as [x s1]. rewrite IH.
    destruct (run_prog (k x) s1) as [[a s2] tr1].
    destruct (run_prog (f a) s2) as [[b s3] tr2]. reflexivity.
  - destruct (impl_Lock key s) as [x s1]. rewrite IH.
    destruct (run_prog (k x) s1) as [[a s2] tr1].
    destruct (run_prog (f a) s2) as [[b s3] tr2]. reflexivity.
  - destruct (impl_Unlock key s) as [x s1]. rewrite IH.
    destruct (run_prog (k x) s1) as [[a s2] tr1].
    destruct (run_prog (f a) s2) as [[b s3] tr2]. reflexivity.
  - rewrite IH.
    destruct (run_prog (k tt) s) as [[a s2] tr1].
    destruct (run_prog (f a) s2) as [[b s3] tr2]. reflexivity.
  - rewrite IH.
    destruct (run_prog (k tt) s) as [[a s2] tr1].
    destruct (run_prog (f a) s2) as [[b s3] tr2]. reflexivity.
Qed.

(** Unfolding of the monadic notation down to the constructors. *)
Ltac prog_unfold :=
  unfold defer, Storage.Exists, Storage.Store, Storage.Load, Storage.Delete,
    Storage.List, Storage.Lock, Storage.Unlock, Logger.Error, fn in *;
  unfold mbind, mret, prog_bind, prog_ret in *;
  cbn [bind Up Down] in *.

(** The prefixed key [Validate] and [Consume] of the persistent backend
    use. *)
Lemma caddy_lookup_key (p k : string) :
  (if decide (len k = AuthLen)
   then p +:+ k else p +:+ EncodeToString (StringToByteSlice k))
  = p +:+ lookup_key k.
Proof. unfold lookup_key. now destruct (decide (len k = AuthLen)). Qed.

Lemma lock_released (key : string) (h : gset string) :
  key ∉ ({[key]} ∪ h) ∖ {[key]}.
Proof.
  intros Hin. apply elem_of_difference in Hin as [_ Hn].
  apply Hn, elem_of_singleton. reflexivity.
Qed.

Section Persistent.
Import CaddyUpstream.
Context `{Json}.

(** C4: whatever the storage answers, [Consume] of the persistent backend
    first takes the lock of the prefixed key, then loads that key, and
    its last call releases the lock; when [Load] fails or the bytes do
    not decode it returns that error and makes no other call (no
    [Store]); otherwise it stores the record with the deltas added and
    returns what [Store] answers. On the table storage an absent entry
    makes [Load] fail: the call returns the error and the table is as
    before (no zero record appears), and the lock is not held after the
    call. *)
Theorem C4_persistent_consume {S : Type} `{StorageImpl S}
    (u : t) (k : string) (nr nw : Z) (s : S) (tb : table) :
  let key := Prefix u +:+ lookup_key k in
  (let '(res, _, tr) := run_prog (Consume u k nr nw) s in
   exists r_lock r_load r_unlock mid,
     tr = EvLock key r_lock :: EvLoad key r_load :: mid ++ [EvUnlock key r_unlock]
     /\ match r_load with
        | inr e => res = Some e /\ mid = []
        | inl b =>
            match json_Unmarshal b Traffic_zero with
            | (_, Some e) => res = Some e /\ mid = []
            | (t, None) =>
                match json_Marshal {| Up := int64_add (Up t) nr;
                                      Down := int64_add (Down t) nw |} with
                | inr e => res = Some e /\ mid = []
                | inl b' => mid = [EvStore key b' res]
                end
            end
        end)
  /\ (let '(res, tb', tr) := run_prog (Consume u k nr nw) tb in
      (key ∉ held tb')
      /\ match data tb !! key with
         | None => res = Some ErrNotExist /\ data tb' = data tb
         | Some b =>
             match json_Unmarshal b Traffic_zero with
             | (_, Some e) => res = Some e /\ data tb' = data tb
             | (t, None) =>
                 match json_Marshal {| Up := int64_add (Up t) nr;
                                       Down := int64_add (Down t) nw |} with
                 | inr e => res = Some e /\ data tb' = data tb
                 | inl b' => res = None /\ data tb' = <[key := b']> (data tb)
                 end
             end
         end).
Proof.
  intros key. unfold Consume. rewrite caddy_lookup_key. fold key.
  split.
  - prog_unfold. cbn [run_prog].
    destruct (impl_Lock key s) as [r_lock s1].
    destruct (impl_Load key s1) as [r_load s2].
    destruct r_load as [b | e].
    + destruct (json_Unmarshal b Traffic_zero) as [t [e |]] eqn:Eu.
      * cbn [bind run_prog]. destruct (impl_Unlock key s2) as [r_unlock s3].
        cbn [run_prog].
        exists r_lock, (inl b), r_unlock, []. rewrite Eu. now split.
      * destruct (json_Marshal _) as [b' | e] eqn:Em.
        -- cbn [bind run_prog]. destruct (impl_Store key b' s2) as [r s3].
           destruct (impl_Unlock key s3) as [r_unlock s4]. cbn [run_prog].
           exists r_lock, (inl b), r_unlock, [EvStore key b' r].
           rewrite Eu, Em. now split.
        -- cbn [bind run_prog]. destruct (impl_Unlock key s2) as [r_unlock s3].
           cbn [run_prog].
           exists r_lock, (inl b), r_unlock, []. rewrite Eu, Em. now split.
    + cbn [bind run_prog]. destruct (impl_Unlock key s2) as [r_unlock s3].
      cbn [run_prog].
      exists r_lock, (inr e), r_unlock, []. now split.
  - prog_unfold. cbn [run_prog impl_Lock impl_Load table_impl data held].
    destruct (data tb !! key) as [b |] eqn:Eb.
    + destruct (json_Unmarshal b Traffic_zero) as [t [e |]] eqn:Eu.
      * cbn. split; [apply lock_released | now split].
      * destruct (json_Marshal _) as [b' | e] eqn:Em.
        -- cbn. split; [apply lock_released | now split].
        -- cbn. split; [apply lock_released | now split].
    + cbn. split; [apply lock_released | now split].
Qed.

(** *** The programs on the table storage *)

Lemma AddKey_table (u : t) (k : string) (tb : table) :
  let key := Prefix u +:+ EncodeToString (StringToByteSlice k) in
  run_prog (AddKey u k) tb
  = if bool_decide (is_Some (data tb !! key))
    then (None, tb, [EvExists key true])
    else match json_Marshal Traffic_zero with
         | inl b => (None, {| data := <[key := b]> (data tb); held := held tb |},
                     [EvExists key false; EvStore key b None])
         | inr e => (Some e, tb, [EvExists key false])
         end.
Proof.
  intros key. unfold AddKey. fold key. prog_unfold.
  cbn [run_prog impl_Exists table_impl].
  destruct (bool_decide (is_Some (data tb !! key))); [reflexivity |].
  change {| Up := 0; Down := 0 |} with Traffic_zero.
  destruct (json_Marshal Traffic_zero); reflexivity.
Qed.

Lemma DelKey_table (u : t) (k : string) (tb : table) :
  let key := Prefix u +:+ EncodeToString (StringToByteSlice k) in
  run_prog (DelKey u k) tb
  = if bool_decide (is_Some (data tb !! key))
    then (None, {| data := delete key (data tb); held := held tb |},
          [EvExists key true; EvDelete key None])
    else (None, tb, [EvExists key false]).
Proof.
  intros key. unfold DelKey. fold key. prog_unfold.
  cbn [run_prog impl_Exists table_impl].
  destruct (bool_decide (is_Some (data tb !! key))); reflexivity.
Qed.

Lemma Validate_table (u : t) (k : string) (tb : table) :
  let key := Prefix u +:+ lookup_key k in
  run_prog (Validate u k) tb
  = (bool_decide (is_Some (data tb !! key)), tb,
     [EvExists key (bool_decide (is_Some (data tb !! key)))]).
Proof.
  intros key. unfold Validate. rewrite caddy_lookup_key. reflexivity.
Qed.

Lemma Consume_table (u : t) (k : string) (nr nw : Z) (tb : table) :
  let key := Prefix u +:+ lookup_key k in
  run_prog (Consume u k nr nw) tb
  = match data tb !! key with
    | None =>
        (Some ErrNotExist, relocked key tb,
         [EvLock key None; EvLoad key (inr ErrNotExist); EvUnlock key None])
    | Some b =>
        match json_Unmarshal b Traffic_zero with
        | (_, Some e) =>
            (Some e, relocked key tb,
             [EvLock key None; EvLoad key (inl b); EvUnlock key None])
        | (t, None) =>
            match json_Marshal {| Up := int64_add (Up t) nr;
                                  Down := int64_add (Down t) nw |} with
            | inr e =>
                (Some e, relocked key tb,
                 [EvLock key None; EvLoad key (inl b); EvUnlock key None])
            | inl b' =>
                (None, relocked key {| data := <[key := b']> (data tb); held := held tb |},
                 [EvLock key None; EvLoad key (inl b); EvStore key b' None;
                  EvUnlock key None])
            end
        end
    end.
Proof.
  intros key. unfold Consume. rewrite caddy_lookup_key. fold key.
  prog_unfold. cbn [run_prog impl_Lock impl_Load table_impl data held].
  destruct (data tb !! key) as [b |]; [| reflexivity].
  destruct (json_Unmarshal b Traffic_zero) as [t [e |]]; [reflexivity |].
  destruct (json_Marshal _); reflexivity.
Qed.

End Persistent.

Lemma lookup_key_other (k : string) :
  len k ≠ AuthLen -> lookup_key k = EncodeToString (StringToByteSlice k).
Proof. intros Hk. unfold lookup_key. now destruct (decide (len k = AuthLen)). Qed.

Lemma lookup_key_canonical (k : string) : len k = AuthLen -> lookup_key k = k.
Proof. intros Hk. unfold lookup_key. now destruct (decide (len k = AuthLen)). Qed.

Lemma int64_range_0 : int64_range 0.
Proof. unfold int64_range, int64_min, int64_max. lia. Qed.

Lemma int64_add_0_l (z : Z) : int64_range z -> int64_add 0 z = z.
Proof. intros Hz. unfold int64_add. now rewrite Z.add_0_l, wrap64_id. Qed.

Section PersistentLedger.
Import CaddyUpstream.
Context `{Json} `{!JsonRoundTrip}.

Lemma Marshal_zero_ok :
  exists b, json_Marshal Traffic_zero = inl b
            /\ forall cur, json_Unmarshal b cur = (Traffic_zero, None).
Proof.
  destruct (json_round_trip Traffic_zero Traffic_zero int64_range_0 int64_range_0)
    as (b & Hm & _).
  exists b. split; [exact Hm |]. intros cur.
  destruct (json_round_trip Traffic_zero cur int64_range_0 int64_range_0)
    as (b' & Hm' & Hu').
  rewrite Hm in Hm'. injection Hm' as <-. exact Hu'.
Qed.

Lemma Marshal_ok (t : Traffic) :
  int64_range (Up t) -> int64_range (Down t) ->
  exists b, json_Marshal t = inl b /\ forall cur, json_Unmarshal b cur = (t, None).
Proof.
  intros Hu Hd. destruct (json_round_trip t t Hu Hd) as (b & Hm & _).
  exists b. split; [exact Hm |]. intros cur.
  destruct (json_round_trip t cur Hu Hd) as (b' & Hm' & Hu').
  rewrite Hm in Hm'. injection Hm' as <-. exact Hu'.
Qed.


End PersistentLedger.

(** ** Which key a secret is stored and looked up under *)

Section Keys.
Context `{Deriver}.

Lemma lookup_key_derived (s : string) : lookup_key (derived_key s) = canonical_key s.
Proof.
  apply lookup_key_other. rewrite len_derived_key. vm_compute. discriminate.
Qed.

Lemma lookup_key_canonical_key (s : string) :
  lookup_key (canonical_key s) = canonical_key s.
Proof. apply lookup_key_canonical, len_canonical_key. Qed.

Lemma Add_is_AddKey_derived `{Json} (u : CaddyUpstream.t) (s : string) :
  CaddyUpstream.Add u s = CaddyUpstream.AddKey u (derived_key s).
Proof. reflexivity. Qed.

Lemma Del_is_DelKey_derived (u : CaddyUpstream.t) (s : string) :
  CaddyUpstream.Del u s = CaddyUpstream.DelKey u (derived_key s).
Proof. reflexivity. Qed.

End Keys.

Section AddValidate.
Context `{Deriver} `{Json} `{!JsonRoundTrip}.

(** C1, as amended: after [Add(s)] the entry of [s] is stored under the
    encoding of the derived key, and [Validate] returns true when it is
    called with the derived key of [s] or with that encoding. Called with
    any other string [k], the raw secret included, [Validate] answers
    whether [k] itself (when [k] has the canonical length) or the
    encoding of [k] is a stored key: it never derives. In memory this is
    on an allocated table, for the persistent backend on the table
    storage. *)
Theorem C1_add_then_validate
    (m : gmap string Traffic) (u : CaddyUpstream.t) (tb : table) (s k : string) :
  (let u1 := {| MemoryUpstream.mm := Some (<[canonical_key s := Traffic_zero]> m) |} in
   MemoryUpstream.Add {| MemoryUpstream.mm := Some m |} s = MemoryUpstream.Returns None u1
   /\ MemoryUpstream.Validate u1 (derived_key s) = MemoryUpstream.Returns true u1
   /\ MemoryUpstream.Validate u1 (canonical_key s) = MemoryUpstream.Returns true u1
   /\ MemoryUpstream.Validate u1 k
      = MemoryUpstream.Returns
          (bool_decide (is_Some ((<[canonical_key s := Traffic_zero]> m) !! lookup_key k))) u1)
  /\ (let '(r1, tb1, _) := run_prog (CaddyUpstream.Add u s) tb in
      r1 = None
      /\ is_Some (data tb1 !! (CaddyUpstream.Prefix u +:+ canonical_key s))
      /\ run_prog (CaddyUpstream.Validate u (derived_key s)) tb1
         = (true, tb1, [EvExists (CaddyUpstream.Prefix u +:+ canonical_key s) true])
      /\ run_prog (CaddyUpstream.Validate u (canonical_key s)) tb1
         = (true, tb1, [EvExists (CaddyUpstream.Prefix u +:+ canonical_key s) true])
      /\ fst (fst (run_prog (CaddyUpstream.Validate u k) tb1))
         = bool_decide (is_Some (data tb1 !! (CaddyUpstream.Prefix u +:+ lookup_key k)))).
Proof.
  split.
  - intros u1. split; [apply Add_alloc |].
    unfold u1. rewrite !Validate_alloc.
    rewrite lookup_key_derived, lookup_key_canonical_key, lookup_insert_eq.
    repeat split; reflexivity.
  - rewrite Add_is_AddKey_derived, AddKey_table. fold (canonical_key s).
    destruct Marshal_zero_ok as (b0 & Hm0 & _). rewrite Hm0.
    set (key := CaddyUpstream.Prefix u +:+ canonical_key s).
    assert (Hstored : forall tb1 : table, is_Some (data tb1 !! key) ->
      is_Some (data tb1 !! key)
      /\ run_prog (CaddyUpstream.Validate u (derived_key s)) tb1
         = (true, tb1, [EvExists key true])
      /\ run_prog (CaddyUpstream.Validate u (canonical_key s)) tb1
         = (true, tb1, [EvExists key true])
      /\ fst (fst (run_prog (CaddyUpstream.Validate u k) tb1))
         = bool_decide (is_Some (data tb1 !! (CaddyUpstream.Prefix u +:+ lookup_key k)))).
    { intros tb1 Hin. rewrite !Validate_table.
      rewrite lookup_key_derived, lookup_key_canonical_key. fold key.
      rewrite bool_decide_eq_true_2 by exact Hin. repeat split; auto. }
    destruct (bool_decide (is_Some (data tb !! key))) eqn:Ex.
    + split; [reflexivity |]. apply Hstored.
      now apply bool_decide_eq_true in Ex.
    + split; [reflexivity |]. apply Hstored.
      cbn [data]. rewrite lookup_insert_eq. eauto.
Qed.

End AddValidate.

(** C1, as stated, fails: after [Add] of the secret a, [Validate] of
    the same secret returns false on both backends (it looks up the
    encoding of the secret, YQ==, and the entry is under the encoding of
    the derived key). *)
Lemma C1_raw_secret_not_validated :
  let canon :=
    "YWJkMzc1MzRjN2Q5YTJlZmI5NDY1ZGU5MzFjZDcwNTVmZmRiODg3OTU2M2FlOTgwNzhkNmQ2ZDU="%string in
  let u1 := {| MemoryUpstream.mm := Some {[ canon := Traffic_zero ]} |} in
  let cu := {| CaddyUpstream.Prefix := "trojan/" |} in
  let tb0 := {| data := ∅; held := ∅ |} in
  @MemoryUpstream.Add sha224_derive {| MemoryUpstream.mm := Some ∅ |} "a"
  = MemoryUpstream.Returns None u1
  /\ MemoryUpstream.Validate u1 "a" = MemoryUpstream.Returns false u1
  /\ lookup_key "a" = "YQ=="%string
  /\ (let '(r1, tb1, _) :=
        run_prog (@CaddyUpstream.Add JsonText.json sha224_derive cu "a") tb0 in
      r1 = None
      /\ dom (data tb1) = {[ ("trojan/" +:+ canon)%string ]}
      /\ run_prog (CaddyUpstream.Validate cu "a") tb1
         = (false, tb1, [EvExists "trojan/YQ==" false])).
Proof. vm_compute. repeat split; reflexivity. Qed.

(** ** Deletion *)

Section Deletion.
Context `{Deriver}.

(** C7, as amended: deletion is idempotent and absence is never an
    error. After [Del(s)], [Validate] called with the derived key of [s]
    or with its encoding returns false, and a second [Del(s)] returns nil
    and changes nothing. The in-memory [DelKey] returns nil whether or
    not the entry exists, also on the nil map; the persistent [DelKey]
    returns nil without calling [Delete] when the storage says the key
    is absent, and otherwise returns what [Delete] answers. *)
Theorem C7_delete_idempotent {S : Type} `{StorageImpl S}
    (m : gmap string Traffic) (u : CaddyUpstream.t) (s k : string)
    (st : S) (tb : table) :
  (let u1 := {| MemoryUpstream.mm := Some (delete (canonical_key s) m) |} in
   MemoryUpstream.Del {| MemoryUpstream.mm := Some m |} s = MemoryUpstream.Returns None u1
   /\ MemoryUpstream.Validate u1 (derived_key s) = MemoryUpstream.Returns false u1
   /\ MemoryUpstream.Validate u1 (canonical_key s) = MemoryUpstream.Returns false u1
   /\ MemoryUpstream.Del u1 s = MemoryUpstream.Returns None u1)
  /\ MemoryUpstream.DelKey {| MemoryUpstream.mm := Some m |} k
     = MemoryUpstream.Returns None
         {| MemoryUpstream.mm := Some (delete (EncodeToString (StringToByteSlice k)) m) |}
  /\ MemoryUpstream.DelKey MemoryUpstream.New k
     = MemoryUpstream.Returns None MemoryUpstream.New
  /\ (let key := CaddyUpstream.Prefix u +:+ EncodeToString (StringToByteSlice k) in
      let '(res, _, tr) := run_prog (CaddyUpstream.DelKey u k) st in
      if fst (impl_Exists key st)
      then tr = [EvExists key true; EvDelete key res]
      else res = None /\ tr = [EvExists key false])
  /\ (let key := CaddyUpstream.Prefix u +:+ canonical_key s in
      let '(r1, tb1, _) := run_prog (CaddyUpstream.Del u s) tb in
      r1 = None
      /\ data tb1 = delete key (data tb)
      /\ run_prog (CaddyUpstream.Validate u (derived_key s)) tb1
         = (false, tb1, [EvExists key false])
      /\ run_prog (CaddyUpstream.Validate u (canonical_key s)) tb1
         = (false, tb1, [EvExists key false])
      /\ run_prog (CaddyUpstream.Del u s) tb1 = (None, tb1, [EvExists key false])).
Proof.
  split; [| split; [reflexivity | split; [reflexivity | split]]].
  - intros u1. split; [apply Del_alloc |]. unfold u1.
    rewrite !Validate_alloc, lookup_key_derived, lookup_key_canonical_key.
    rewrite Del_alloc, lookup_delete_eq, delete_delete_eq.
    repeat split; reflexivity.
  - intros key. unfold CaddyUpstream.DelKey. fold key. prog_unfold.
    cbn [run_prog]. destruct (impl_Exists key st) as [[|] s1]; cbn [fst negb run_prog].
    + destruct (impl_Delete key s1) as [r s2]. reflexivity.
    + now split.
  - intros key.
    assert (Hgone : forall tb1 : table, data tb1 !! key = None ->
      run_prog (CaddyUpstream.Validate u (derived_key s)) tb1
        = (false, tb1, [EvExists key false])
      /\ run_prog (CaddyUpstream.Validate u (canonical_key s)) tb1
        = (false, tb1, [EvExists key false])
      /\ run_prog (CaddyUpstream.Del u s) tb1 = (None, tb1, [EvExists key false])).
    { intros tb1 Hno.
      rewrite !Validate_table, lookup_key_derived, lookup_key_canonical_key.
      rewrite Del_is_DelKey_derived, DelKey_table.
      fold (canonical_key s). fold key. rewrite Hno.
      rewrite bool_decide_eq_false_2 by (intros [? ?]; congruence).
      repeat split; reflexivity. }
    rewrite Del_is_DelKey_derived, DelKey_table. fold (canonical_key s). fold key.
    destruct (bool_decide (is_Some (data tb !! key))) eqn:Ex.
    + split; [reflexivity |]. split; [reflexivity |].
      apply Hgone. cbn [data]. apply lookup_delete_eq.
    + apply bool_decide_eq_false in Ex.
      assert (Hno : data tb !! key = None).
      { destruct (data tb !! key) eqn:E; [exfalso; eauto | reflexivity]. }
      split; [reflexivity |]. split; [| now apply Hgone].
      symmetry. now apply delete_id.
Qed.

End Deletion.

(** C7, as stated, fails: on a ledger that holds the entry [AddKey]
    made for the string a, [Del] of the secret a returns nil and
    [Validate] of that secret then returns true, on both backends: [Del]
    removes the entry under the encoding of the derived key, [Validate]
    looks up the encoding of its argument. *)
Lemma C7_del_then_validate_true :
  let u0 := {| MemoryUpstream.mm := Some {[ "YQ=="%string := Traffic_zero ]} |} in
  let cu := {| CaddyUpstream.Prefix := "trojan/" |} in
  let tb0 := {| data := ∅; held := ∅ |} in
  MemoryUpstream.AddKey {| MemoryUpstream.mm := Some ∅ |} "a"
  = MemoryUpstream.Returns None u0
  /\ @MemoryUpstream.Del sha224_derive u0 "a" = MemoryUpstream.Returns None u0
  /\ MemoryUpstream.Validate u0 "a" = MemoryUpstream.Returns true u0
  /\ (let '(_, tb1, _) := run_prog (@CaddyUpstream.AddKey JsonText.json cu "a") tb0 in
      let '(r2, tb2, _) := run_prog (@CaddyUpstream.Del sha224_derive cu "a") tb1 in
      r2 = None
      /\ run_prog (CaddyUpstream.Validate cu "a") tb2
         = (true, tb2, [EvExists "trojan/YQ==" true])).
Proof. vm_compute. repeat split; reflexivity. Qed.

(** ** Arguments of the canonical length *)

Section CanonicalLength.
Context `{Json} `{!JsonRoundTrip}.


End CanonicalLength.

(** ** Enumeration *)

Section Enumeration.
Import CaddyUpstream.
Context `{Json}.


End Enumeration.

Section EnumerationTable.
Import CaddyUpstream.
Context `{Json} `{!JsonRoundTrip}.

(** On the table storage, over keys that all hold a serialized record,
    the loop calls the visitor once for each key, in order, with the
    stored counters, and leaves the table as it was. *)
Lemma Range_loop_table (u : t) (rec : string -> Traffic) (tb : table)
    (keys : list string) (cur : Traffic) :
  Forall (fun k => exists b, data tb !! k = Some b
                     /\ forall cur, json_Unmarshal b cur = (rec k, None)) keys ->
  snd (fst (run_prog (Range_loop u keys cur) tb)) = tb
  /\ visits (snd (run_prog (Range_loop u keys cur) tb))
     = map (fun k => (TrimPrefix k (Prefix u), Up (rec k), Down (rec k))) keys.
Proof.
  intros Hall. revert cur. induction Hall as [|k keys (b & Hb & Hu) _ IH]; intros cur.
  - split; reflexivity.
  - cbn [Range_loop]. prog_unfold. cbn [run_prog impl_Load table_impl].
    rewrite Hb, Hu. cbn [bind run_prog].
    destruct (IH (rec k)) as [Hst Hv].
    destruct (run_prog (Range_loop u keys (rec k)) tb) as [[r tb'] tr].
    cbn [fst snd] in *. split; [exact Hst |].
    cbn [map]. rewrite <- Hv. reflexivity.
Qed.


End EnumerationTable.

(** ** Counters over sequences of calls *)

Lemma consumed_nonneg (key : string) (c : call) :
  nonneg_deltas c = true -> 0 <= fst (consumed key c) /\ 0 <= snd (consumed key c).
Proof.
  destruct c; cbn; try lia. intros Hn.
  apply andb_true_iff in Hn as [Hr Hw]. apply Z.leb_le in Hr, Hw.
  destruct (decide _); cbn; lia.
Qed.

Lemma consumed_up_nonneg (key : string) (cs : list call) :
  forallb nonneg_deltas cs = true -> 0 <= consumed_up key cs.
Proof.
  induction cs as [|c cs IH]; cbn; [lia |]. intros Hn.
  apply andb_true_iff in Hn as [Hc Hcs].
  pose proof (consumed_nonneg key c Hc). specialize (IH Hcs).
  unfold consumed_up in IH. lia.
Qed.

Lemma consumed_down_nonneg (key : string) (cs : list call) :
  forallb nonneg_deltas cs = true -> 0 <= consumed_down key cs.
Proof.
  induction cs as [|c cs IH]; cbn; [lia |]. intros Hn.
  apply andb_true_iff in Hn as [Hc Hcs].
  pose proof (consumed_nonneg key c Hc). specialize (IH Hcs).
  unfold consumed_down in IH. lia.
Qed.

Section MemoryCounters.
Import MemoryUpstream.
Context `{Deriver}.

Lemma exec_alloc (c : call) (m : gmap string Traffic) :
  exec {| mm := Some m |} c = Returns tt {| mm := Some (mem_step c m) |}.
Proof.
  destruct c; cbn [exec mem_step].
  - now rewrite Add_alloc.
  - now rewrite AddKey_alloc.
  - now rewrite Del_alloc.
  - now rewrite DelKey_alloc.
  - reflexivity.
  - now rewrite Validate_alloc.
  - now rewrite Consume_alloc.
Qed.

(** One call that neither creates nor deletes the entry under [key]
    leaves it with its counters plus what the call consumed. *)
Lemma mem_step_counters (key : string) (c : call) (m : gmap string Traffic)
    (t : Traffic) :
  m !! key = Some t ->
  creates key c = false -> deletes key c = false ->
  int64_range (Up t + fst (consumed key c)) ->
  int64_range (Down t + snd (consumed key c)) ->
  mem_step c m !! key
  = Some {| Up := Up t + fst (consumed key c); Down := Down t + snd (consumed key c) |}.
Proof.
  intros Hm Hc Hd Hu Hw.
  assert (Hsame : m !! key = Some {| Up := Up t + 0; Down := Down t + 0 |}).
  { rewrite Hm, !Z.add_0_r. now destruct t. }
  destruct c as [s | k | s | k | | k | k nr nw]; cbn [mem_step consumed fst snd] in *.
  - apply bool_decide_eq_false in Hc. now rewrite lookup_insert_ne.
  - apply bool_decide_eq_false in Hc. now rewrite lookup_insert_ne.
  - apply bool_decide_eq_false in Hd. now rewrite lookup_delete_ne.
  - apply bool_decide_eq_false in Hd. now rewrite lookup_delete_ne.
  - exact Hsame.
  - exact Hsame.
  - destruct (decide (lookup_key k = key)) as [-> | Hne]; cbn [fst snd] in *.
    + rewrite lookup_insert_eq, Hm. cbn [default].
      now rewrite !int64_add_exact.
    + now rewrite lookup_insert_ne.
Qed.

Lemma mem_run_counters (key : string) (cs : list call) (m : gmap string Traffic)
    (t : Traffic) :
  m !! key = Some t ->
  int64_range (Up t) -> int64_range (Down t) ->
  forallb (fun c => nonneg_deltas c && negb (creates key c) && negb (deletes key c)) cs
    = true ->
  Up t + consumed_up key cs <= int64_max ->
  Down t + consumed_down key cs <= int64_max ->
  exists m',
    run {| mm := Some m |} cs = Returns tt {| mm := Some m' |}
    /\ m' !! key = Some {| Up := Up t + consumed_up key cs;
                           Down := Down t + consumed_down key cs |}.
Proof.
  revert m t. induction cs as [|c cs IH]; intros m t Hm Hu Hd Hall Hup Hdown.
  - exists m. split; [reflexivity |]. cbn. rewrite Hm, !Z.add_0_r. now destruct t.
  - cbn [forallb] in Hall. apply andb_true_iff in Hall as [Hc Hcs].
    apply andb_true_iff in Hc as [Hc Hdel]. apply andb_true_iff in Hc as [Hn Hcr].
    apply negb_true_iff in Hcr, Hdel.
    assert (Hrest : forallb nonneg_deltas cs = true).
    { clear -Hcs. induction cs as [|c' cs' IH']; [reflexivity |].
      cbn [forallb] in *. apply andb_true_iff in Hcs as [Hc' Hcs'].
      rewrite (IH' Hcs'), andb_true_r.
      now apply andb_true_iff in Hc' as [Hc' _]; apply andb_true_iff in Hc' as [Hc' _]. }
    pose proof (consumed_nonneg key c Hn) as [Hn1 Hn2].
    pose proof (consumed_up_nonneg key cs Hrest) as Hr1.
    pose proof (consumed_down_nonneg key cs Hrest) as Hr2.
    cbn [consumed_up consumed_down foldr] in Hup, Hdown |- *.
    fold (consumed_up key cs) in Hup |- *. fold (consumed_down key cs) in Hdown |- *.
    unfold int64_range, int64_min, int64_max in *.
    assert (Hu1 : - 2 ^ 63 <= Up t + fst (consumed key c) <= 2 ^ 63 - 1) by lia.
    assert (Hd1 : - 2 ^ 63 <= Down t + snd (consumed key c) <= 2 ^ 63 - 1) by lia.
    assert (Hstep := mem_step_counters key c m t Hm Hcr Hdel Hu1 Hd1).
    destruct (IH (mem_step c m) _ Hstep) as (m' & Hrun & Hm'); cbn [Up Down];
      try lia; [exact Hcs |].
    exists m'. split.
    + cbn [run]. rewrite exec_alloc. exact Hrun.
    + rewrite Hm'. cbn [Up Down]. now rewrite !Z.add_assoc.
Qed.

End MemoryCounters.

Lemma state_after_bind {S : Type} `{StorageImpl S} {A B : Type}
    (p : prog A) (f : A -> prog B) (s : S) :
  state_after (bind p f) s
  = state_after (f (fst (fst (run_prog p s)))) (state_after p s).
Proof.
  unfold state_after. rewrite run_prog_bind.
  destruct (run_prog p s) as [[a s1] tr1]. cbn [fst snd].
  destruct (run_prog (f a) s1) as [[b s2] tr2]. reflexivity.
Qed.

Section PersistentCounters.
Import CaddyUpstream.
Context `{Deriver} `{Json} `{!JsonRoundTrip}.

Lemma Range_loop_table_state (u : t) (keys : list string) (cur : Traffic) (tb : table) :
  state_after (Range_loop u keys cur) tb = tb.
Proof.
  unfold state_after. revert cur. induction keys as [|k keys IH]; intros cur.
  - reflexivity.
  - cbn [Range_loop]. prog_unfold. cbn [run_prog impl_Load table_impl].
    destruct (data tb !! k) as [b |].
    + destruct (json_Unmarshal b cur) as [t' [e |]]; cbn [bind run_prog];
        specialize (IH t');
        destruct (run_prog (Range_loop u keys t') tb) as [[r tb'] tr]; exact IH.
    + cbn [bind run_prog]. specialize (IH cur).
      destruct (run_prog (Range_loop u keys cur) tb) as [[r tb'] tr]. exact IH.
Qed.

Lemma Range_table_state (u : t) (tb : table) : state_after (Range u) tb = tb.
Proof.
  unfold Range. prog_unfold. unfold state_after.
  cbn [run_prog impl_List table_impl].
  pose proof (Range_loop_table_state u
    (filter (fun k => String.prefix (Prefix u) k = true) (map fst (map_to_list (data tb))))
    Traffic_zero tb) as Hst.
  unfold state_after in Hst.
  destruct (run_prog (Range_loop u _ Traffic_zero) tb) as [[r tb'] tr]. exact Hst.
Qed.

Lemma holds_same (u : t) (tb tb' : table) (key : string) (rec : Traffic) :
  data tb' !! (Prefix u +:+ key) = data tb !! (Prefix u +:+ key) ->
  holds u tb key rec ->
  holds u tb' key {| Up := Up rec + 0; Down := Down rec + 0 |}.
Proof.
  intros Heq (b & Hb & Hu). exists b. rewrite Heq. split; [exact Hb |].
  intros cur. rewrite Hu, !Z.add_0_r. now destruct rec.
Qed.

Lemma prefixed_ne (p a b : string) : a ≠ b -> p +:+ a ≠ p +:+ b.
Proof. intros Hne Heq. apply Hne. now apply (inj (String.app _)) in Heq. Qed.

Lemma AddKey_table_keeps (u : t) (k key : string) (tb : table) (rec : Traffic) :
  holds u tb key rec ->
  holds u (state_after (AddKey u k) tb) key {| Up := Up rec + 0; Down := Down rec + 0 |}.
Proof.
  intros Hh. apply (holds_same u tb); [| exact Hh].
  unfold state_after. rewrite AddKey_table.
  destruct (bool_decide _) eqn:Ex; [reflexivity |].
  destruct (json_Marshal Traffic_zero); [| reflexivity]. cbn [fst snd data].
  apply lookup_insert_ne. intros Heq.
  apply bool_decide_eq_false in Ex. apply Ex.
  destruct Hh as (b & Hb & _). rewrite Heq. eauto.
Qed.

Lemma DelKey_table_keeps (u : t) (k key : string) (tb : table) (rec : Traffic) :
  EncodeToString (StringToByteSlice k) ≠ key ->
  holds u tb key rec ->
  holds u (state_after (DelKey u k) tb) key {| Up := Up rec + 0; Down := Down rec + 0 |}.
Proof.
  intros Hne Hh. apply (holds_same u tb); [| exact Hh].
  unfold state_after. rewrite DelKey_table.
  destruct (bool_decide _); [| reflexivity]. cbn [fst snd data].
  apply lookup_delete_ne. now apply prefixed_ne.
Qed.

Lemma Consume_table_counters (u : t) (k key : string) (nr nw : Z) (tb : table)
    (rec : Traffic) :
  holds u tb key rec ->
  int64_range (Up rec + fst (consumed key (CallConsume k nr nw))) ->
  int64_range (Down rec + snd (consumed key (CallConsume k nr nw))) ->
  holds u (state_after (Consume u k nr nw) tb) key
    {| Up := Up rec + fst (consumed key (CallConsume k nr nw));
       Down := Down rec + snd (consumed key (CallConsume k nr nw)) |}.
Proof.
  intros Hh Hu Hd. cbn [consumed] in *.
  unfold state_after. rewrite Consume_table.
  destruct (decide (lookup_key k = key)) as [-> | Hne]; cbn [fst snd] in *.
  - destruct Hh as (b & Hb & Hdec). rewrite Hb, Hdec.
    rewrite !int64_add_exact by assumption.
    destruct (Marshal_ok {| Up := Up rec + nr; Down := Down rec + nw |} Hu Hd)
      as (b' & Hm & Hu').
    rewrite Hm. cbn [fst snd]. exists b'. cbn [relocked data].
    rewrite lookup_insert_eq. now split.
  - apply (holds_same u tb); [| exact Hh].
    assert (Hpne : Prefix u +:+ lookup_key k ≠ Prefix u +:+ key) by now apply prefixed_ne.
    destruct (data tb !! (Prefix u +:+ lookup_key k)) as [b |]; [| reflexivity].
    destruct (json_Unmarshal b Traffic_zero) as [t' [e |]]; [reflexivity |].
    destruct (json_Marshal _); [| reflexivity].
    cbn [fst snd relocked data]. now apply lookup_insert_ne.
Qed.

(** One call that does not delete the entry under [key] leaves it with
    its counters plus what the call consumed; [AddKey] and [Add] on the
    existing entry leave it as it is. *)
Lemma table_step_counters (u : t) (key : string) (c : call) (tb : table)
    (rec : Traffic) :
  holds u tb key rec ->
  deletes key c = false ->
  int64_range (Up rec + fst (consumed key c)) ->
  int64_range (Down rec + snd (consumed key c)) ->
  holds u (state_after (exec u c) tb) key
    {| Up := Up rec + fst (consumed key c); Down := Down rec + snd (consumed key c) |}.
Proof.
  intros Hh Hdel Hu Hd.
  destruct c as [s | k | s | k | | k | k nr nw]; cbn [exec];
    try (unfold mbind, mret, prog_bind, prog_ret; rewrite state_after_bind;
         cbn [state_after run_prog fst snd]; fold (@state_after table _)).
  - rewrite Add_is_AddKey_derived. now apply AddKey_table_keeps.
  - now apply AddKey_table_keeps.
  - rewrite Del_is_DelKey_derived. apply DelKey_table_keeps; [| exact Hh].
    cbn [deletes] in Hdel. now apply bool_decide_eq_false in Hdel.
  - apply DelKey_table_keeps; [| exact Hh].
    cbn [deletes] in Hdel. now apply bool_decide_eq_false in Hdel.
  - rewrite Range_table_state. now apply (holds_same u tb).
  - apply (holds_same u tb); [| exact Hh].
    unfold state_after. now rewrite Validate_table.
  - now apply Consume_table_counters.
Qed.

Lemma table_run_counters (u : t) (key : string) (cs : list call) (tb : table)
    (rec : Traffic) :
  holds u tb key rec ->
  int64_range (Up rec) -> int64_range (Down rec) ->
  forallb (fun c => nonneg_deltas c && negb (deletes key c)) cs = true ->
  Up rec + consumed_up key cs <= int64_max ->
  Down rec + consumed_down key cs <= int64_max ->
  holds u (state_after (run u cs) tb) key
    {| Up := Up rec + consumed_up key cs; Down := Down rec + consumed_down key cs |}.
Proof.
  revert tb rec. induction cs as [|c cs IH]; intros tb rec Hh Hu Hd Hall Hup Hdown.
  - cbn. now apply (holds_same u tb).
  - cbn [forallb] in Hall. apply andb_true_iff in Hall as [Hc Hcs].
    apply andb_true_iff in Hc as [Hn Hdel]. apply negb_true_iff in Hdel.
    assert (Hrest : forallb nonneg_deltas cs = true).
    { clear -Hcs. induction cs as [|c' cs' IH']; [reflexivity |].
      cbn [forallb] in *. apply andb_true_iff in Hcs as [Hc' Hcs'].
      rewrite (IH' Hcs'), andb_true_r.
      now apply andb_true_iff in Hc' as [Hc' _]. }
    pose proof (consumed_nonneg key c Hn) as [Hn1 Hn2].
    pose proof (consumed_up_nonneg key cs Hrest) as Hr1.
    pose proof (consumed_down_nonneg key cs Hrest) as Hr2.
    cbn [consumed_up consumed_down foldr] in Hup, Hdown |- *.
    fold (consumed_up key cs) in Hup |- *. fold (consumed_down key cs) in Hdown |- *.
    unfold int64_range, int64_min, int64_max in *.
    assert (Hu1 : - 2 ^ 63 <= Up rec + fst (consumed key c) <= 2 ^ 63 - 1) by lia.
    assert (Hd1 : - 2 ^ 63 <= Down rec + snd (consumed key c) <= 2 ^ 63 - 1) by lia.
    assert (Hstep := table_step_counters u key c tb rec Hh Hdel Hu1 Hd1).
    cbn [run]. unfold mbind, prog_bind. rewrite state_after_bind.
    specialize (IH _ _ Hstep). cbn [Up Down] in IH.
    rewrite !Z.add_assoc. apply IH; try lia. exact Hcs.
Qed.

End PersistentCounters.

Lemma consumed_up_app (key : string) (cs1 cs2 : list call) :
  consumed_up key (cs1 ++ cs2) = consumed_up key cs1 + consumed_up key cs2.
Proof.
  induction cs1 as [|c cs1 IH]; [reflexivity |].
  cbn [app consumed_up foldr]. fold (consumed_up key (cs1 ++ cs2)).
  fold (consumed_up key cs1). lia.
Qed.

Lemma consumed_down_app (key : string) (cs1 cs2 : list call) :
  consumed_down key (cs1 ++ cs2) = consumed_down key cs1 + consumed_down key cs2.
Proof.
  induction cs1 as [|c cs1 IH]; [reflexivity |].
  cbn [app consumed_down foldr]. fold (consumed_down key (cs1 ++ cs2)).
  fold (consumed_down key cs1). lia.
Qed.

Lemma forallb_weaken {A : Type} (f g : A -> bool) (l : list A) :
  (forall x, f x = true -> g x = true) ->
  forallb f l = true -> forallb g l = true.
Proof.
  intros Hfg. induction l as [|x l IH]; [reflexivity |]. cbn [forallb].
  intros Hall. apply andb_true_iff in Hall as [Hx Hl].
  now rewrite (Hfg x Hx), (IH Hl).
Qed.

Section Counters.
Context `{Deriver} `{Json} `{!JsonRoundTrip}.

(** C9, as amended: take an entry with counters [rec] and a sequence of
    calls, cut anywhere into [cs1] and [cs2], in which every [Consume]
    has non-negative deltas, no call deletes the entry and, in memory,
    none creates it again, and in which the counters do not leave the
    range of [int64]. Then the entry is there after [cs1] and after
    [cs2], and its counters do not decrease: they are those of [rec]
    plus what the calls consumed. In memory [AddKey] of the entry sets
    its counters to zero; in the persistent backend (on the table
    storage) [AddKey] leaves them. *)
Theorem C9_counters_monotone
    (m : gmap string Traffic) (u : CaddyUpstream.t) (tb : table)
    (key k : string) (rec : Traffic) (cs1 cs2 ds1 ds2 : list call) :
  int64_range (Up rec) -> int64_range (Down rec) ->
  m !! key = Some rec ->
  holds u tb key rec ->
  forallb (fun c => nonneg_deltas c && negb (creates key c) && negb (deletes key c))
          (cs1 ++ cs2) = true ->
  Up rec + consumed_up key (cs1 ++ cs2) <= int64_max ->
  Down rec + consumed_down key (cs1 ++ cs2) <= int64_max ->
  forallb (fun c => nonneg_deltas c && negb (deletes key c)) (ds1 ++ ds2) = true ->
  Up rec + consumed_up key (ds1 ++ ds2) <= int64_max ->
  Down rec + consumed_down key (ds1 ++ ds2) <= int64_max ->
  EncodeToString (StringToByteSlice k) = key ->
  (exists m1 m2 t1 t2,
     MemoryUpstream.run {| MemoryUpstream.mm := Some m |} cs1
     = MemoryUpstream.Returns tt {| MemoryUpstream.mm := Some m1 |}
     /\ MemoryUpstream.run {| MemoryUpstream.mm := Some m1 |} cs2
        = MemoryUpstream.Returns tt {| MemoryUpstream.mm := Some m2 |}
     /\ m1 !! key = Some t1 /\ m2 !! key = Some t2
     /\ Up rec <= Up t1 <= Up t2 /\ Down rec <= Down t1 <= Down t2
     /\ Up t2 = Up rec + consumed_up key (cs1 ++ cs2)
     /\ Down t2 = Down rec + consumed_down key (cs1 ++ cs2))
  /\ (exists t1 t2,
        holds u (state_after (CaddyUpstream.run u ds1) tb) key t1
        /\ holds u (state_after (CaddyUpstream.run u ds2)
                      (state_after (CaddyUpstream.run u ds1) tb)) key t2
        /\ Up rec <= Up t1 <= Up t2 /\ Down rec <= Down t1 <= Down t2
        /\ Up t2 = Up rec + consumed_up key (ds1 ++ ds2)
        /\ Down t2 = Down rec + consumed_down key (ds1 ++ ds2))
  /\ MemoryUpstream.AddKey {| MemoryUpstream.mm := Some m |} k
     = MemoryUpstream.Returns None
         {| MemoryUpstream.mm := Some (<[key := Traffic_zero]> m) |}
  /\ holds u (state_after (CaddyUpstream.AddKey u k) tb) key rec.
Proof.
  intros Hu Hd Hm Hh Hcs Hcu Hcd Hds Hdu Hdd Hk.
  rewrite !consumed_up_app, !consumed_down_app in *.
  rewrite forallb_app in Hcs, Hds.
  apply andb_true_iff in Hcs as [Hcs1 Hcs2]. apply andb_true_iff in Hds as [Hds1 Hds2].
  assert (Hn : forall f cs,
            (forall c, f c = true -> nonneg_deltas c = true) ->
            forallb f cs = true ->
            0 <= consumed_up key cs /\ 0 <= consumed_down key cs).
  { intros f cs Hf Hall. apply (forallb_weaken f nonneg_deltas cs Hf) in Hall.
    split; [now apply consumed_up_nonneg | now apply consumed_down_nonneg]. }
  assert (Hf1 : forall c,
            nonneg_deltas c && negb (creates key c) && negb (deletes key c) = true ->
            nonneg_deltas c = true).
  { intros c Hc. apply andb_true_iff in Hc as [Hc _].
    now apply andb_true_iff in Hc as [Hc _]. }
  assert (Hf2 : forall c,
            nonneg_deltas c && negb (deletes key c) = true -> nonneg_deltas c = true).
  { intros c Hc. now apply andb_true_iff in Hc as [Hc _]. }
  pose proof (Hn _ _ Hf1 Hcs1) as Hc1. pose proof (Hn _ _ Hf1 Hcs2) as Hc2.
  pose proof (Hn _ _ Hf2 Hds1) as Hd1. pose proof (Hn _ _ Hf2 Hds2) as Hd2.
  unfold int64_range, int64_min, int64_max in *.
  split; [| split; [| split]].
  - destruct (mem_run_counters key cs1 m rec Hm) as (m1 & Hrun1 & Hm1);
      unfold int64_range, int64_min, int64_max; try lia; try assumption.
    destruct (mem_run_counters key cs2 m1 _ Hm1) as (m2 & Hrun2 & Hm2);
      unfold int64_range, int64_min, int64_max; cbn [Up Down]; try lia; try assumption.
    exists m1, m2. do 2 eexists.
    split; [exact Hrun1 |]. split; [exact Hrun2 |]. split; [exact Hm1 |].
    split; [exact Hm2 |]. cbn [Up Down]. lia.
  - pose proof (table_run_counters u key ds1 tb rec Hh) as Ht1.
    unfold int64_range, int64_min, int64_max in Ht1.
    specialize (Ht1 ltac:(lia)). specialize (Ht1 ltac:(lia)).
    specialize (Ht1 Hds1). specialize (Ht1 ltac:(lia)). specialize (Ht1 ltac:(lia)).
    pose proof (table_run_counters u key ds2 _ _ Ht1) as Ht2.
    unfold int64_range, int64_min, int64_max in Ht2. cbn [Up Down] in Ht2.
    specialize (Ht2 ltac:(lia)). specialize (Ht2 ltac:(lia)).
    specialize (Ht2 Hds2). specialize (Ht2 ltac:(lia)). specialize (Ht2 ltac:(lia)).
    do 2 eexists. split; [exact Ht1 |]. split; [exact Ht2 |]. cbn [Up Down]. lia.
  - rewrite AddKey_alloc, Hk. reflexivity.
  - pose proof (AddKey_table_keeps u k key tb rec Hh) as Hkeep.
    rewrite !Z.add_0_r in Hkeep. now destruct rec.
Qed.

End Counters.

(** C9, as stated, fails: with non-negative deltas a counter can
    decrease, by the wrap-around of [int64]. On the entry [AddKey] made
    for the string a, [Consume] of 9223372036854775807 and then of 1
    leaves up = -9223372036854775808, on both backends. *)
Lemma C9_overflow_decreases :
  let u0 := {| MemoryUpstream.mm := Some {[ "YQ=="%string := Traffic_zero ]} |} in
  let u1 := {| MemoryUpstream.mm :=
                 Some {[ "YQ=="%string := {| Up := 9223372036854775807; Down := 0 |} ]} |} in
  let u2 := {| MemoryUpstream.mm :=
                 Some {[ "YQ=="%string := {| Up := -9223372036854775808; Down := 0 |} ]} |} in
  let cu := {| CaddyUpstream.Prefix := "trojan/" |} in
  let tb0 := {| data := ∅; held := ∅ |} in
  MemoryUpstream.Consume u0 "a" 9223372036854775807 0 = MemoryUpstream.Returns None u1
  /\ MemoryUpstream.Consume u1 "a" 1 0 = MemoryUpstream.Returns None u2
  /\ (let '(_, tb1, _) := run_prog (@CaddyUpstream.AddKey JsonText.json cu "a") tb0 in
      let '(r2, tb2, _) :=
        run_prog (@CaddyUpstream.Consume JsonText.json cu "a" 9223372036854775807 0) tb1 in
      let '(r3, tb3, _) :=
        run_prog (@CaddyUpstream.Consume JsonText.json cu "a" 1 0) tb2 in
      r2 = None /\ r3 = None
      /\ match data tb2 !! "trojan/YQ=="%string with
         | Some b => JsonText.Unmarshal b Traffic_zero
         | None => (Traffic_zero, Some EmptyString)
         end = ({| Up := 9223372036854775807; Down := 0 |}, None)
      /\ match data tb3 !! "trojan/YQ=="%string with
         | Some b => JsonText.Unmarshal b Traffic_zero
         | None => (Traffic_zero, Some EmptyString)
         end = ({| Up := -9223372036854775808; Down := 0 |}, None)).
Proof. vm_compute. repeat split; reflexivity. Qed.

(** ** Further properties of the in-memory ledger *)

Lemma wrap64_add_l (x y : Z) : wrap64 (wrap64 x + y) = wrap64 (x + y).
Proof.
  unfold wrap64.
  replace ((x + 2 ^ 63) mod 2 ^ 64 - 2 ^ 63 + y + 2 ^ 63)
    with ((x + 2 ^ 63) mod 2 ^ 64 + y) by lia.
  rewrite Z.add_mod_idemp_l by lia. f_equal. f_equal. lia.
Qed.

Lemma int64_add_assoc (x a c : Z) :
  int64_add (int64_add x a) c = int64_add x (int64_add a c).
Proof.
  unfold int64_add. rewrite wrap64_add_l.
  rewrite (Z.add_comm x (wrap64 (a + c))), wrap64_add_l. f_equal. lia.
Qed.

Lemma int64_add_swap (x a c : Z) :
  int64_add (int64_add x a) c = int64_add (int64_add x c) a.
Proof.
  unfold int64_add. rewrite !wrap64_add_l. f_equal. lia.
Qed.

Section MemoryMore.
Import MemoryUpstream.
Context `{Deriver}.

(** X1: on an allocated table [Range] calls the visitor exactly once for
    each entry, with the key as stored and the entry's counters, and
    leaves the table as it is: the keys visited are distinct, there are
    as many visits as entries, and a visit is made exactly for what the
    table holds. *)
Theorem memory_range_each_entry_once (m : gmap string Traffic) :
  exists vs : list visit,
    Range {| mm := Some m |} = Returns vs {| mm := Some m |}
    /\ NoDup (map (fun v : visit => fst (fst v)) vs)
    /\ length vs = size m
    /\ forall (k : string) (up down : Z),
         (k, up, down) ∈ vs <-> m !! k = Some {| Up := up; Down := down |}.
Proof.
  eexists. split; [reflexivity |]. cbn [go_range mm]. split; [| split].
  - rewrite map_map. cbn [fst]. apply NoDup_fst_map_to_list.
  - rewrite length_map. apply length_map_to_list.
  - intros k up down. rewrite list_elem_of_In, in_map_iff. split.
    + intros ([k' t] & [= <- <- <-] & Hin). cbn [fst snd].
      apply list_elem_of_In, elem_of_map_to_list in Hin. rewrite Hin. now destruct t.
    + intros Hk. exists (k, {| Up := up; Down := down |}). split; [reflexivity |].
      apply list_elem_of_In, elem_of_map_to_list. exact Hk.
Qed.

(** X2: a call of the in-memory backend changes at most the entry it
    works on: on an allocated table every call returns, and the entry
    under any other key is as before. *)
Theorem memory_call_frame (c : call) (m : gmap string Traffic) (key : string) :
  target_key c ≠ Some key ->
  exists m', exec {| mm := Some m |} c = Returns tt {| mm := Some m' |}
             /\ m' !! key = m !! key.
Proof.
  intros Hne. exists (mem_step c m). split; [apply exec_alloc |].
  destruct c; cbn [mem_step target_key] in *;
    try reflexivity;
    (apply lookup_insert_ne || apply lookup_delete_ne); congruence.
Qed.

(** X3: [Consume] of the in-memory backend creates the entry it does not
    find: on an allocated table without an entry for the key, [Validate]
    answers false before the call and true after it, and the new entry
    holds the two deltas (reduced to [int64]). *)
Theorem memory_consume_creates (m : gmap string Traffic) (k : string) (nr nw : Z) :
  m !! lookup_key k = None ->
  exists u',
    Validate {| mm := Some m |} k = Returns false {| mm := Some m |}
    /\ Consume {| mm := Some m |} k nr nw = Returns None u'
    /\ Validate u' k = Returns true u'
    /\ go_index (mm u') (lookup_key k) = ({| Up := wrap64 nr; Down := wrap64 nw |}, true).
Proof.
  intros Hno. eexists. rewrite Consume_alloc, !Validate_alloc, Hno.
  cbn [mm go_index default Up Down Traffic_zero]. rewrite lookup_insert_eq.
  repeat split; reflexivity.
Qed.

(** X4: calls of [Consume] add up and commute: on an allocated table two
    calls on the same key leave what one call with the [int64] sums of
    the deltas leaves, and two calls, on the same key or not, leave the
    same table in either order. *)
Theorem memory_consume_composes (m : gmap string Traffic) (k k' : string)
    (a b c d : Z) :
  (exists u1 u2,
     Consume {| mm := Some m |} k a b = Returns None u1
     /\ Consume u1 k c d = Returns None u2
     /\ Consume {| mm := Some m |} k (int64_add a c) (int64_add b d) = Returns None u2)
  /\ (exists u1 u1' u2,
        Consume {| mm := Some m |} k a b = Returns None u1
        /\ Consume u1 k' c d = Returns None u2
        /\ Consume {| mm := Some m |} k' c d = Returns None u1'
        /\ Consume u1' k a b = Returns None u2).
Proof.
  split.
  - do 2 eexists. rewrite !Consume_alloc. split; [reflexivity |].
    split; [reflexivity |]. rewrite lookup_insert_eq, insert_insert_eq.
    cbn [default from_option id Up Down]. rewrite !int64_add_assoc. reflexivity.
  - do 3 eexists. rewrite !Consume_alloc. split; [reflexivity |].
    split; [reflexivity |]. split; [reflexivity |].
    destruct (decide (lookup_key k = lookup_key k')) as [Heq | Hne].
    + rewrite <- Heq, !lookup_insert_eq, !insert_insert_eq.
      cbn [default from_option id Up Down].
      rewrite (int64_add_swap _ c a), (int64_add_swap _ d b). reflexivity.
    + rewrite !lookup_insert_ne by congruence.
      rewrite insert_insert_ne by congruence. reflexivity.
Qed.

End MemoryMore.

(** ** What the persistent backend asks of its storage *)

Lemma prog_events_run {S : Type} `{StorageImpl S} {R : Type}
    (P : event -> Prop) (p : prog R) (s : S) :
  prog_events P p -> Forall P (snd (run_prog p s)).
Proof.
  revert s. induction p as [r | key k IH | key value k IH | key k IH | key k IH
                            | prefix recursive k IH | key k IH | key k IH
                            | msg k IH | key up down k IH];
    intros s Hp; cbn [prog_events run_prog] in *.
  - constructor.
  - destruct (impl_Exists key s) as [x s1]. destruct (Hp x) as [Hx Hk].
    specialize (IH x s1 Hk). destruct (run_prog (k x) s1) as [[a s2] tr].
    now constructor.
  - destruct (impl_Store key value s) as [x s1]. destruct (Hp x) as [Hx Hk].
    specialize (IH x s1 Hk). destruct (run_prog (k x) s1) as [[a s2] tr].
    now constructor.
  - destruct (impl_Load key s) as [x s1]. destruct (Hp x) as [Hx Hk].
    specialize (IH x s1 Hk). destruct (run_prog (k x) s1) as [[a s2] tr].
    now constructor.
  - destruct (impl_Delete key s) as [x s1]. destruct (Hp x) as [Hx Hk].
    specialize (IH x s1 Hk). destruct (run_prog (k x) s1) as [[a s2] tr].
    now constructor.
  - destruct (impl_List prefix recursive s) as [x s1]. destruct (Hp x) as [Hx Hk].
    specialize (IH x s1 Hk). destruct (run_prog (k x) s1) as [[a s2] tr].
    now constructor.
  - destruct (impl_Lock key s) as [x s1]. destruct (Hp x) as [Hx Hk].
    specialize (IH x s1 Hk). destruct (run_prog (k x) s1) as [[a s2] tr].
    now constructor.
  - destruct (impl_Unlock key s) as [x s1]. destruct (Hp x) as [Hx Hk].
    specialize (IH x s1 Hk). destruct (run_prog (k x) s1) as [[a s2] tr].
    now constructor.
  - destruct Hp as [Hx Hk].
    specialize (IH tt s Hk). destruct (run_prog (k tt) s) as [[a s2] tr].
    now constructor.
  - destruct Hp as [Hx Hk].
    specialize (IH tt s Hk). destruct (run_prog (k tt) s) as [[a s2] tr].
    now constructor.
Qed.

Lemma prog_events_bind {A B : Type} (P : event -> Prop) (p : prog A) (f : A -> prog B) :
  prog_events P p -> (forall a, prog_events P (f a)) -> prog_events P (bind p f).
Proof.
  intros Hp Hf.
  induction p as [r | key k IH | key value k IH | key k IH | key k IH
                  | prefix recursive k IH | key k IH | key k IH
                  | msg k IH | key up down k IH];
    cbn [prog_events bind] in *;
    first [ now apply Hf
          | intros x; destruct (Hp x) as [Hx Hk]; (split; [exact Hx | now apply IH])
          | destruct Hp as [Hx Hk]; (split; [exact Hx | now apply IH]) ].
Qed.

Section Footprint.
Import CaddyUpstream.
Context `{Deriver} `{Json}.

Lemma AddKey_events (u : t) (k : string) (c : call) :
  (c = CallAddKey k \/ exists s, c = CallAdd s /\ k = derived_key s) ->
  prog_events (allowed u c) (AddKey u k).
Proof.
  intros Hc. unfold AddKey. prog_unfold. cbn [prog_events].
  assert (Ht : forall b : bool, forall r : option error, forall v : list byte,
            allowed u c (EvExists (Prefix u +:+ EncodeToString (StringToByteSlice k)) b)
            /\ allowed u c (EvStore (Prefix u +:+ EncodeToString (StringToByteSlice k)) v r)).
  { intros b r v. destruct Hc as [-> | (s & -> & ->)]; split; reflexivity. }
  intros x. split; [apply (Ht x None []) |].
  destruct x; [exact I |].
  destruct (json_Marshal _); cbn [prog_events]; [| exact I].
  intros r. split; [apply (Ht false r l) | exact I].
Qed.

Lemma DelKey_events (u : t) (k : string) (c : call) :
  (c = CallDelKey k \/ exists s, c = CallDel s /\ k = derived_key s) ->
  prog_events (allowed u c) (DelKey u k).
Proof.
  intros Hc. unfold DelKey. prog_unfold. cbn [prog_events].
  assert (Ht : forall b : bool, forall r : option error,
            allowed u c (EvExists (Prefix u +:+ EncodeToString (StringToByteSlice k)) b)
            /\ allowed u c (EvDelete (Prefix u +:+ EncodeToString (StringToByteSlice k)) r)).
  { intros b r. destruct Hc as [-> | (s & -> & ->)]; split; reflexivity. }
  intros x. split; [apply (Ht x None) |].
  destruct x; cbn [negb prog_events]; [| exact I].
  intros r. split; [apply (Ht true r) | exact I].
Qed.

Lemma Range_loop_events (u : t) (keys : list string) (cur : Traffic) :
  prog_events (allowed u CallRange) (Range_loop u keys cur).
Proof.
  revert cur. induction keys as [|k keys IH]; intros cur; [exact I |].
  cbn [Range_loop]. prog_unfold. cbn [prog_events].
  intros [b | e]; (split; [exact I |]).
  - destruct (json_Unmarshal b cur) as [t' [e |]]; cbn [bind prog_events];
      (split; [exact I | apply IH]).
  - cbn [bind prog_events]. split; [exact I | apply IH].
Qed.

Lemma exec_events (u : t) (c : call) : prog_events (allowed u c) (exec u c).
Proof.
  destruct c as [s | k | s | k | | k | k nr nw]; cbn [exec];
    unfold mbind, mret, prog_bind, prog_ret;
    try (apply prog_events_bind; [| intros; exact I]).
  - rewrite Add_is_AddKey_derived. apply AddKey_events. right. eauto.
  - apply AddKey_events. now left.
  - rewrite Del_is_DelKey_derived. apply DelKey_events. right. eauto.
  - apply DelKey_events. now left.
  - unfold Range. prog_unfold. cbn [prog_events].
    intros [keys | e]; (split; [now split |]); [apply Range_loop_events | exact I].
  - unfold Validate. rewrite caddy_lookup_key. prog_unfold. cbn [prog_events].
    intros x. split; [reflexivity | exact I].
  - unfold Consume. rewrite caddy_lookup_key. prog_unfold. cbn [prog_events].
    intros rl. split; [reflexivity |]. intros [b | e]; (split; [reflexivity |]).
    + destruct (json_Unmarshal b Traffic_zero) as [t' [e |]]; cbn [bind prog_events].
      * intros ru. split; [reflexivity | exact I].
      * destruct (json_Marshal _); cbn [bind prog_events].
        -- intros rs. split; [reflexivity |]. intros ru. split; [reflexivity | exact I].
        -- intros ru. split; [reflexivity | exact I].
    + cbn [bind prog_events]. intros ru. split; [reflexivity | exact I].
Qed.

(** X5: whatever the storage answers, a call of the persistent backend
    other than [Range] names no key but its own, the prefix followed by
    the key of the entry it works on; [Validate] and [Range] never write
    ([Store], [Delete]); only [Consume] takes or releases a lock; and
    [Range] lists the prefix, not recursively. *)
Theorem persistent_call_footprint {S : Type} `{StorageImpl S}
    (u : t) (c : call) (s : S) :
  Forall (fun e =>
            match target_key c with
            | Some key => event_key e = Some (Prefix u +:+ key)
            | None =>
                is_write e = false
                /\ forall p r x, e = EvList p r x -> p = Prefix u /\ r = false
            end
            /\ match c with
               | CallValidate _ => is_write e = false
               | _ => True
               end
            /\ match c with
               | CallConsume _ _ _ => True
               | _ => is_lock e = false
               end)
         (snd (run_prog (exec u c) s)).
Proof.
  eapply Forall_impl; [apply prog_events_run, exec_events |].
  intros e Ha.
  destruct c, e; cbn [allowed target_key option_map event_key is_write is_lock] in *;
    try contradiction;
    (split; [| split; first [exact I | reflexivity]]);
    first [ exact Ha
          | split; [reflexivity |]; intros p' r' x' Heq;
            first [ discriminate Heq | injection Heq as -> -> ->; exact Ha ] ].
Qed.

End Footprint.

(** ** The lock discipline *)

Lemma prog_locks_run {S : Type} `{StorageImpl S} {R : Type}
    (p : prog R) (held : option string) (s : S) :
  prog_locks held p -> lock_run held (snd (run_prog p s)) = Some None.
Proof.
  revert held s.
  induction p as [r | key k IH | key value k IH | key k IH | key k IH
                  | prefix recursive k IH | key k IH | key k IH
                  | msg k IH | key up down k IH];
    intros held s Hp; cbn [prog_locks run_prog] in *.
  - now subst.
  - destruct (impl_Exists key s) as [x s1]. specialize (Hp x).
    specialize (IH x). destruct (run_prog (k x) s1) as [[a s2] tr] eqn:E.
    cbn [snd lock_run]. destruct (lock_step held _); [| contradiction].
    specialize (IH _ s1 Hp). now rewrite E in IH.
  - destruct (impl_Store key value s) as [x s1]. specialize (Hp x).
    specialize (IH x). destruct (run_prog (k x) s1) as [[a s2] tr] eqn:E.
    cbn [snd lock_run]. destruct (lock_step held _); [| contradiction].
    specialize (IH _ s1 Hp). now rewrite E in IH.
  - destruct (impl_Load key s) as [x s1]. specialize (Hp x).
    specialize (IH x). destruct (run_prog (k x) s1) as [[a s2] tr] eqn:E.
    cbn [snd lock_run]. destruct (lock_step held _); [| contradiction].
    specialize (IH _ s1 Hp). now rewrite E in IH.
  - destruct (impl_Delete key s) as [x s1]. specialize (Hp x).
    specialize (IH x). destruct (run_prog (k x) s1) as [[a s2] tr] eqn:E.
    cbn [snd lock_run]. destruct (lock_step held _); [| contradiction].
    specialize (IH _ s1 Hp). now rewrite E in IH.
  - destruct (impl_List prefix recursive s) as [x s1]. specialize (Hp x).
    specialize (IH x). destruct (run_prog (k x) s1) as [[a s2] tr] eqn:E.
    cbn [snd lock_run]. destruct (lock_step held _); [| contradiction].
    specialize (IH _ s1 Hp). now rewrite E in IH.
  - destruct (impl_Lock key s) as [x s1]. specialize (Hp x).
    specialize (IH x). destruct (run_prog (k x) s1) as [[a s2] tr] eqn:E.
    cbn [snd lock_run]. destruct (lock_step held _); [| contradiction].
    specialize (IH _ s1 Hp). now rewrite E in IH.
  - destruct (impl_Unlock key s) as [x s1]. specialize (Hp x).
    specialize (IH x). destruct (run_prog (k x) s1) as [[a s2] tr] eqn:E.
    cbn [snd lock_run]. destruct (lock_step held _); [| contradiction].
    specialize (IH _ s1 Hp). now rewrite E in IH.
  - specialize (IH tt). destruct (run_prog (k tt) s) as [[a s2] tr] eqn:E.
    cbn [snd lock_run]. destruct (lock_step held _); [| contradiction].
    specialize (IH _ s Hp). now rewrite E in IH.
  - specialize (IH tt). destruct (run_prog (k tt) s) as [[a s2] tr] eqn:E.
    cbn [snd lock_run]. destruct (lock_step held _); [| contradiction].
    specialize (IH _ s Hp). now rewrite E in IH.
Qed.

Lemma prog_locks_bind {A B : Type} (p : prog A) (f : A -> prog B)
    (held : option string) :
  prog_locks held p -> (forall a, prog_locks None (f a)) ->
  prog_locks held (bind p f).
Proof.
  intros Hp Hf. revert held Hp.
  induction p as [r | key k IH | key value k IH | key k IH | key k IH
                  | prefix recursive k IH | key k IH | key k IH
                  | msg k IH | key up down k IH];
    intros held Hp; cbn [prog_locks bind] in *;
    first [ subst; now apply Hf
          | intros x; specialize (Hp x);
            destruct (lock_step held _); [now apply IH | contradiction]
          | destruct (lock_step held _); [now apply IH | contradiction] ].
Qed.

Section Locks.
Import CaddyUpstream.
Context `{Deriver} `{Json}.

Lemma Range_loop_locks (u : t) (keys : list string) (cur : Traffic) :
  prog_locks None (Range_loop u keys cur).
Proof.
  revert cur. induction keys as [|k keys IH]; intros cur; [reflexivity |].
  cbn [Range_loop]. prog_unfold. cbn [prog_locks lock_step].
  intros [b | e].
  - destruct (json_Unmarshal b cur) as [t' [e |]]; cbn [bind prog_locks lock_step];
      apply IH.
  - cbn [bind prog_locks lock_step]. apply IH.
Qed.

Lemma exec_locks (u : t) (c : call) : prog_locks None (exec u c).
Proof.
  destruct c as [s | k | s | k | | k | k nr nw]; cbn [exec];
    unfold mbind, mret, prog_bind, prog_ret;
    try (apply prog_locks_bind; [| intros; reflexivity]).
  - rewrite Add_is_AddKey_derived. unfold AddKey. prog_unfold.
    cbn [prog_locks lock_step]. intros [|]; [reflexivity |].
    destruct (json_Marshal _); cbn [prog_locks lock_step]; [| reflexivity].
    intros r. reflexivity.
  - unfold AddKey. prog_unfold.
    cbn [prog_locks lock_step]. intros [|]; [reflexivity |].
    destruct (json_Marshal _); cbn [prog_locks lock_step]; [| reflexivity].
    intros r. reflexivity.
  - rewrite Del_is_DelKey_derived. unfold DelKey. prog_unfold.
    cbn [prog_locks lock_step]. intros [|]; cbn [negb prog_locks lock_step];
      [intros r |]; reflexivity.
  - unfold DelKey. prog_unfold.
    cbn [prog_locks lock_step]. intros [|]; cbn [negb prog_locks lock_step];
      [intros r |]; reflexivity.
  - unfold Range. prog_unfold. cbn [prog_locks lock_step].
    intros [keys | e]; [apply Range_loop_locks | reflexivity].
  - unfold Validate. prog_unfold. cbn [prog_locks lock_step]. intros x. reflexivity.
  - unfold Consume. rewrite caddy_lookup_key. prog_unfold. cbn [prog_locks lock_step].
    intros rl [b | e]; (destruct (decide _) as [_ | Hne]; [| congruence]).
    + destruct (json_Unmarshal b Traffic_zero) as [t' [e |]];
        cbn [bind prog_locks lock_step].
      * intros ru. destruct (decide _) as [_ | Hne]; [reflexivity | congruence].
      * destruct (json_Marshal _); cbn [bind prog_locks lock_step].
        -- intros rs. destruct (decide _) as [_ | Hne]; [| congruence].
           intros ru. destruct (decide _) as [_ | Hne]; [reflexivity | congruence].
        -- intros ru. destruct (decide _) as [_ | Hne]; [reflexivity | congruence].
    + cbn [bind prog_locks lock_step].
      intros ru. destruct (decide _) as [_ | Hne]; [reflexivity | congruence].
Qed.

Lemma run_locks (u : t) (cs : list call) : prog_locks None (run u cs).
Proof.
  induction cs as [|c cs IH]; [reflexivity |].
  cbn [run]. unfold mbind, prog_bind.
  apply prog_locks_bind; [apply exec_locks | intros _; exact IH].
Qed.

Lemma exec_table_held (u : t) (c : call) (tb : table) :
  held (state_after (exec u c) tb) ⊆ held tb.
Proof.
  destruct c as [s | k | s | k | | k | k nr nw]; cbn [exec];
    try (unfold mbind, mret, prog_bind, prog_ret; rewrite state_after_bind;
         cbn [state_after run_prog fst snd]; fold (@state_after table _)).
  - rewrite Add_is_AddKey_derived. unfold state_after. rewrite AddKey_table.
    destruct (bool_decide _); [reflexivity |].
    destruct (json_Marshal _); reflexivity.
  - unfold state_after. rewrite AddKey_table.
    destruct (bool_decide _); [reflexivity |].
    destruct (json_Marshal _); reflexivity.
  - rewrite Del_is_DelKey_derived. unfold state_after. rewrite DelKey_table.
    destruct (bool_decide _); reflexivity.
  - unfold state_after. rewrite DelKey_table.
    destruct (bool_decide _); reflexivity.
  - pose proof (Range_table_state u tb) as Hst. unfold state_after in *.
    now rewrite Hst.
  - unfold state_after. now rewrite Validate_table.
  - unfold state_after. rewrite Consume_table.
    assert (Hrel : forall d : gmap string (list byte),
              held (relocked (Prefix u +:+ lookup_key k) {| data := d; held := held tb |})
              ⊆ held tb).
    { intros d x Hx. cbn [relocked held] in Hx.
      apply elem_of_difference in Hx as [Hx Hn].
      apply elem_of_union in Hx as [Hx | Hx]; [contradiction | exact Hx]. }
    destruct (data tb !! _) as [b |]; [| apply (Hrel (data tb))].
    destruct (json_Unmarshal b Traffic_zero) as [t' [e |]]; [apply (Hrel (data tb)) |].
    destruct (json_Marshal _); cbn [fst snd]; [apply Hrel | apply (Hrel (data tb))].
Qed.

(** X6: whatever the storage answers, a sequence of calls of the
    persistent backend keeps the lock discipline: a lock is taken only
    when none is held and is released, under the same key, before the
    call that took it returns; while it is held the storage is asked
    about the locked key only, and neither the visitor nor the logger is
    called. On the table storage no call leaves a lock held that was not
    held before. *)
Theorem persistent_lock_discipline {S : Type} `{StorageImpl S}
    (u : t) (cs : list call) (s : S) (tb : table) :
  lock_run None (snd (run_prog (run u cs) s)) = Some None
  /\ held (state_after (run u cs) tb) ⊆ held tb.
Proof.
  split; [apply prog_locks_run, run_locks |].
  revert tb. induction cs as [|c cs IH]; intros tb; [reflexivity |].
  cbn [run]. unfold mbind, prog_bind. rewrite state_after_bind.
  etransitivity; [apply IH | apply exec_table_held].
Qed.

End Locks.

(** ** An entry through its life *)

Lemma Range_alloc_elem (m : gmap string Traffic) (k : string) (t : Traffic) :
  m !! k = Some t ->
  exists vs, MemoryUpstream.Range {| MemoryUpstream.mm := Some m |}
             = MemoryUpstream.Returns vs {| MemoryUpstream.mm := Some m |}
             /\ (k, Up t, Down t) ∈ vs.
Proof.
  intros Hk. eexists. split; [reflexivity |]. cbn [go_range MemoryUpstream.mm].
  apply list_elem_of_In, in_map_iff. exists (k, t). split; [reflexivity |].
  now apply list_elem_of_In, elem_of_map_to_list.
Qed.

Section EntryLife.
Import CaddyUpstream.
Context `{Deriver} `{Json} `{!JsonRoundTrip}.

Lemma visits_cons_other (e : event) (tr : list event) (v : visit) :
  v ∈ visits tr -> v ∈ visits (e :: tr).
Proof.
  intros Hv. unfold visits in *. cbn [omap list_omap].
  destruct e; try exact Hv. now apply list_elem_of_further.
Qed.

(** On the table storage, [Range] visits every listed key that holds a
    serialized record, with that record, whatever the other keys hold. *)
Lemma Range_loop_table_visit (u : t) (tb : table) (k : string) (rec : Traffic)
    (keys : list string) (cur : Traffic) :
  k ∈ keys ->
  (exists b, data tb !! k = Some b /\ forall cur, json_Unmarshal b cur = (rec, None)) ->
  (TrimPrefix k (Prefix u), Up rec, Down rec)
    ∈ visits (snd (run_prog (Range_loop u keys cur) tb)).
Proof.
  intros Hin (b & Hb & Hdec). revert cur.
  induction keys as [|k' keys IH]; intros cur; [now apply elem_of_nil in Hin |].
  cbn [Range_loop]. prog_unfold. cbn [run_prog impl_Load table_impl].
  destruct (decide (k = k')) as [<- | Hne].
  - rewrite Hb, Hdec. cbn [bind run_prog].
    destruct (run_prog (Range_loop u keys rec) tb) as [[r tb'] tr]. cbn [snd].
    apply visits_cons_other. unfold visits. cbn [omap list_omap].
    apply list_elem_of_here.
  - apply elem_of_cons in Hin as [Heq | Hin]; [contradiction |].
    specialize (IH Hin).
    destruct (data tb !! k') as [b' |].
    + destruct (json_Unmarshal b' cur) as [t' [e |]]; cbn [bind run_prog];
        specialize (IH t');
        destruct (run_prog (Range_loop u keys t') tb) as [[r tb'] tr]; cbn [snd] in *;
        now do 2 apply visits_cons_other.
    + cbn [bind run_prog]. specialize (IH cur).
      destruct (run_prog (Range_loop u keys cur) tb) as [[r tb'] tr]; cbn [snd] in *.
      now do 2 apply visits_cons_other.
Qed.

Lemma Range_table_visit (u : t) (tb : table) (key : string) (rec : Traffic) :
  holds u tb key rec ->
  (key, Up rec, Down rec) ∈ visits (snd (run_prog (Range u) tb)).
Proof.
  intros (b & Hb & Hdec). unfold Range. prog_unfold.
  cbn [run_prog impl_List table_impl].
  set (keys := filter (fun k => String.prefix (Prefix u) k = true)
                      (map fst (map_to_list (data tb)))).
  assert (Hin : Prefix u +:+ key ∈ keys).
  { unfold keys. apply list_elem_of_filter. split; [apply prefix_app |].
    apply list_elem_of_In, in_map_iff. exists (Prefix u +:+ key, b).
    split; [reflexivity |]. now apply list_elem_of_In, elem_of_map_to_list. }
  pose proof (Range_loop_table_visit u tb _ rec keys Traffic_zero Hin
                (ex_intro _ b (conj Hb Hdec))) as Hv.
  rewrite TrimPrefix_app in Hv.
  destruct (run_prog (Range_loop u keys Traffic_zero) tb) as [[r tb'] tr].
  cbn [snd] in *. now apply visits_cons_other.
Qed.

(** X7: the derived key and its encoding name the same entry. After
    [Add(s)], [Consume] called with the derived key of [s] and [Consume]
    called with the canonical key both add to the entry [Add] made; with
    sums in the range of [int64] the entry then holds the two sums,
    [Range] reports them under the canonical key, and [Validate] accepts
    that key. In memory on an allocated table; for the persistent
    backend on the table storage, when the entry did not exist before. *)
Theorem both_key_forms_same_entry
    (m : gmap string Traffic) (u : t) (tb : table) (s : string) (a b c d : Z) :
  int64_range a -> int64_range b -> int64_range (a + c) -> int64_range (b + d) ->
  data tb !! (Prefix u +:+ canonical_key s) = None ->
  (exists u1 u2 u3 vs,
     MemoryUpstream.Add {| MemoryUpstream.mm := Some m |} s = MemoryUpstream.Returns None u1
     /\ MemoryUpstream.Consume u1 (derived_key s) a b = MemoryUpstream.Returns None u2
     /\ MemoryUpstream.Consume u2 (canonical_key s) c d = MemoryUpstream.Returns None u3
     /\ go_index (MemoryUpstream.mm u3) (canonical_key s)
        = ({| Up := a + c; Down := b + d |}, true)
     /\ MemoryUpstream.Validate u3 (canonical_key s) = MemoryUpstream.Returns true u3
     /\ MemoryUpstream.Range u3 = MemoryUpstream.Returns vs u3
     /\ (canonical_key s, a + c, b + d) ∈ vs)
  /\ (let '(r1, tb1, _) := run_prog (Add u s) tb in
      let '(r2, tb2, _) := run_prog (Consume u (derived_key s) a b) tb1 in
      let '(r3, tb3, _) := run_prog (Consume u (canonical_key s) c d) tb2 in
      r1 = None /\ r2 = None /\ r3 = None
      /\ holds u tb3 (canonical_key s) {| Up := a + c; Down := b + d |}
      /\ fst (fst (run_prog (Validate u (canonical_key s)) tb3)) = true
      /\ (canonical_key s, a + c, b + d) ∈ visits (snd (run_prog (Range u) tb3))).
Proof.
  intros Ha Hb Hac Hbd Hno. split.
  - assert (H2 : MemoryUpstream.Consume
                   {| MemoryUpstream.mm := Some (<[canonical_key s := Traffic_zero]> m) |}
                   (derived_key s) a b
                 = MemoryUpstream.Returns None
                     {| MemoryUpstream.mm :=
                          Some (<[canonical_key s := {| Up := a; Down := b |}]> m) |}).
    { rewrite Consume_alloc, lookup_key_derived.
      rewrite lookup_insert_eq, insert_insert_eq.
      cbn [default from_option id Up Down Traffic_zero].
      now rewrite (int64_add_0_l a Ha), (int64_add_0_l b Hb). }
    assert (H3 : MemoryUpstream.Consume
                   {| MemoryUpstream.mm :=
                        Some (<[canonical_key s := {| Up := a; Down := b |}]> m) |}
                   (canonical_key s) c d
                 = MemoryUpstream.Returns None
                     {| MemoryUpstream.mm :=
                          Some (<[canonical_key s := {| Up := a + c; Down := b + d |}]> m) |}).
    { rewrite Consume_alloc, lookup_key_canonical_key.
      rewrite lookup_insert_eq, insert_insert_eq.
      cbn [default from_option id Up Down].
      now rewrite !int64_add_exact by assumption. }
    destruct (Range_alloc_elem
                (<[canonical_key s := {| Up := a + c; Down := b + d |}]> m)
                (canonical_key s) _ (lookup_insert_eq _ _ _)) as (vs & Hr & Hin).
    eexists _, _, _, vs. split; [apply Add_alloc |].
    split; [exact H2 |]. split; [exact H3 |]. cbn [MemoryUpstream.mm go_index].
    rewrite lookup_insert_eq. split; [reflexivity |].
    split; [| now split].
    rewrite Validate_alloc, lookup_key_canonical_key, lookup_insert_eq. reflexivity.
  - rewrite Add_is_AddKey_derived, AddKey_table. fold (canonical_key s).
    set (key := Prefix u +:+ canonical_key s) in *.
    rewrite Hno, bool_decide_eq_false_2 by (intros [? ?]; congruence).
    destruct Marshal_zero_ok as (b0 & Hm0 & Hu0). rewrite Hm0.
    rewrite Consume_table, lookup_key_derived. fold key. cbn [data].
    rewrite lookup_insert_eq, Hu0. cbn [Up Down Traffic_zero].
    rewrite (int64_add_0_l a Ha), (int64_add_0_l b Hb).
    destruct (Marshal_ok {| Up := a; Down := b |} Ha Hb) as (b1 & Hm1 & Hu1).
    rewrite Hm1.
    rewrite Consume_table, lookup_key_canonical_key. fold key. cbn [relocked data].
    rewrite lookup_insert_eq, Hu1. cbn [Up Down].
    rewrite !int64_add_exact by assumption.
    destruct (Marshal_ok {| Up := a + c; Down := b + d |} Hac Hbd) as (b2 & Hm2 & Hu2).
    rewrite Hm2.
    match goal with |- context [holds u ?x _ _] => set (tb3 := x) end.
    assert (Hh : holds u tb3 (canonical_key s) {| Up := a + c; Down := b + d |}).
    { exists b2. fold key. unfold tb3. cbn [relocked data].
      rewrite lookup_insert_eq. now split. }
    split; [reflexivity |]. split; [reflexivity |]. split; [reflexivity |].
    split; [exact Hh |]. split.
    + rewrite Validate_table, lookup_key_canonical_key. cbn [fst].
      apply bool_decide_eq_true. destruct Hh as (b' & Hb' & _). fold key in Hb'. eauto.
    + exact (Range_table_visit u tb3 _ _ Hh).
Qed.

(** X8: [Del(s)] followed by [Add(s)] leaves the entry of [s] with zero
    counters on both backends, whatever it held: in memory on an
    allocated table, for the persistent backend on the table storage,
    where this is the way to reset an entry ([Add] alone leaves an
    existing entry as it is). *)
Theorem del_then_add_resets
    (m : gmap string Traffic) (u : t) (tb : table) (s : string) :
  (exists u1 u2,
     MemoryUpstream.Del {| MemoryUpstream.mm := Some m |} s = MemoryUpstream.Returns None u1
     /\ MemoryUpstream.Add u1 s = MemoryUpstream.Returns None u2
     /\ go_index (MemoryUpstream.mm u2) (canonical_key s) = (Traffic_zero, true))
  /\ (let '(r1, tb1, _) := run_prog (Del u s) tb in
      let '(r2, tb2, tr2) := run_prog (Add u s) tb1 in
      r1 = None /\ r2 = None
      /\ holds u tb2 (canonical_key s) Traffic_zero
      /\ exists b, tr2 = [EvExists (Prefix u +:+ canonical_key s) false;
                          EvStore (Prefix u +:+ canonical_key s) b None]).
Proof.
  split.
  - do 2 eexists. rewrite Del_alloc, Add_alloc. split; [reflexivity |].
    split; [reflexivity |]. cbn [MemoryUpstream.mm go_index].
    now rewrite lookup_insert_eq.
  - rewrite Del_is_DelKey_derived, DelKey_table. fold (canonical_key s).
    set (key := Prefix u +:+ canonical_key s).
    destruct Marshal_zero_ok as (b0 & Hm0 & Hu0).
    assert (Hadd : forall tb1 : table, data tb1 !! key = None ->
      let '(r2, tb2, tr2) := run_prog (Add u s) tb1 in
      r2 = None /\ holds u tb2 (canonical_key s) Traffic_zero
      /\ exists b, tr2 = [EvExists key false; EvStore key b None]).
    { intros tb1 Hno. rewrite Add_is_AddKey_derived, AddKey_table.
      fold (canonical_key s). fold key.
      rewrite Hno, bool_decide_eq_false_2 by (intros [? ?]; congruence).
      rewrite Hm0. split; [reflexivity |]. split; [| eauto].
      exists b0. fold key. cbn [data]. rewrite lookup_insert_eq. now split. }
    destruct (bool_decide (is_Some (data tb !! key))) eqn:Ex.
    + specialize (Hadd {| data := delete key (data tb); held := held tb |}
                       (lookup_delete_eq _ _)).
      destruct (run_prog (Add u s) _) as [[r2 tb2] tr2].
      destruct Hadd as (-> & Hh & Htr). now repeat split.
    + apply bool_decide_eq_false in Ex.
      assert (Hno : data tb !! key = None).
      { destruct (data tb !! key) eqn:E; [exfalso; eauto | reflexivity]. }
      specialize (Hadd tb Hno).
      destruct (run_prog (Add u s) tb) as [[r2 tb2] tr2].
      destruct Hadd as (-> & Hh & Htr). now repeat split.
Qed.

End EntryLife.

(** ** The encoding of keys is injective *)

Section Base64.
Local Open Scope N_scope.

Lemma b64_alphabet :
  forallb (fun i => (b64index (b64char (N.of_nat i)) =? N.of_nat i)
                    && negb (Ascii.eqb (b64char (N.of_nat i)) "="))
          (seq 0 64) = true.
Proof. vm_compute. reflexivity. Qed.

Lemma b64char_land (v : N) : b64char v = b64char (N.land v 63).
Proof.
  unfold b64char. now rewrite <- N.land_assoc, N.land_diag.
Qed.

Lemma land_63 (v : N) : N.land v 63 = v mod 64.
Proof. change 63 with (N.ones 6). now rewrite N.land_ones. Qed.

Lemma b64char_spec (v : N) :
  b64index (b64char v) = v mod 64 /\ b64char v ≠ "="%char.
Proof.
  rewrite b64char_land, land_63.
  assert (Hlt : v mod 64 < 64) by (apply N.mod_lt; lia).
  generalize dependent (v mod 64). clear v. intros v Hlt.
  pose proof (proj1 (forallb_forall _ _) b64_alphabet (N.to_nat v)) as Hi.
  cbv beta in Hi. rewrite N2Nat.id in Hi.
  assert (Hin : In (N.to_nat v) (seq 0 64)) by (apply in_seq; lia).
  apply Hi, andb_true_iff in Hin as [Hidx Hne].
  apply N.eqb_eq in Hidx. split; [exact Hidx |].
  intros Heq. rewrite Heq in Hne. discriminate.
Qed.

Lemma b64char_inj (v w : N) : b64char v = b64char w -> v mod 64 = w mod 64.
Proof.
  intros Heq. rewrite <- (proj1 (b64char_spec v)), <- (proj1 (b64char_spec w)).
  now rewrite Heq.
Qed.

Lemma shiftl_lor_add (a w n : N) : w < 2 ^ n -> N.lor (N.shiftl a n) w = a * 2 ^ n + w.
Proof.
  intros Hw. rewrite <- N.shiftl_mul_pow2.
  rewrite <- N.lxor_lor, <- N.add_nocarry_lxor; try reflexivity.
  all: apply N.bits_inj; intros i; rewrite N.land_spec, N.bits_0;
    destruct (N.lt_ge_cases i n) as [Hi | Hi];
    [ now rewrite N.shiftl_spec_low
    | rewrite <- (N.mod_small w (2 ^ n)) by exact Hw;
      rewrite N.mod_pow2_bits_high by exact Hi; apply andb_false_r ].
Qed.

Lemma to_N_lt (b : byte) : Byte.to_N b < 256.
Proof. pose proof (Byte.to_N_bounded b). lia. Qed.

Lemma to_N_inj (a b : byte) : Byte.to_N a = Byte.to_N b -> a = b.
Proof.
  intros Heq. pose proof (Byte.of_to_N a) as Ha. rewrite Heq, Byte.of_to_N in Ha.
  now injection Ha.
Qed.

(** The 24-bit value of a group of three bytes. *)
Lemma group_value (a b c : byte) :
  N.lor (N.lor (N.shiftl (Byte.to_N a) 16) (N.shiftl (Byte.to_N b) 8)) (Byte.to_N c)
  = Byte.to_N a * 65536 + Byte.to_N b * 256 + Byte.to_N c.
Proof.
  pose proof (to_N_lt a). pose proof (to_N_lt b). pose proof (to_N_lt c).
  rewrite <- N.lor_assoc, (shiftl_lor_add (Byte.to_N b) (Byte.to_N c) 8) by (cbn; lia).
  rewrite shiftl_lor_add by (cbn; lia). cbn. lia.
Qed.

Lemma group_value2 (a b : byte) :
  N.lor (N.shiftl (Byte.to_N a) 16) (N.shiftl (Byte.to_N b) 8)
  = Byte.to_N a * 65536 + Byte.to_N b * 256.
Proof.
  pose proof (to_N_lt a). pose proof (to_N_lt b).
  rewrite (N.shiftl_mul_pow2 (Byte.to_N b)).
  rewrite shiftl_lor_add by (cbn; lia). cbn. lia.
Qed.

Lemma group_value1 (a : byte) : N.shiftl (Byte.to_N a) 16 = Byte.to_N a * 65536.
Proof. now rewrite N.shiftl_mul_pow2. Qed.

(** Four characters of the alphabet determine the 24-bit value they encode. *)
Lemma sextets_inj (v w : N) :
  v < 16777216 -> w < 16777216 ->
  b64char (N.shiftr v 18) = b64char (N.shiftr w 18) ->
  b64char (N.shiftr v 12) = b64char (N.shiftr w 12) ->
  b64char (N.shiftr v 6) = b64char (N.shiftr w 6) ->
  b64char v = b64char w ->
  v = w.
Proof.
  intros Hv Hw H1 H2 H3 H4.
  apply b64char_inj in H1, H2, H3, H4.
  rewrite !N.shiftr_div_pow2 in *.
  change (2 ^ 18) with 262144 in *. change (2 ^ 12) with 4096 in *.
  change (2 ^ 6) with 64 in *.
  pose proof (N.div_mod v 64 ltac:(lia)) as E1.
  pose proof (N.div_mod (v / 64) 64 ltac:(lia)) as E2.
  pose proof (N.div_mod (v / 64 / 64) 64 ltac:(lia)) as E3.
  pose proof (N.div_mod w 64 ltac:(lia)) as F1.
  pose proof (N.div_mod (w / 64) 64 ltac:(lia)) as F2.
  pose proof (N.div_mod (w / 64 / 64) 64 ltac:(lia)) as F3.
  rewrite !N.Div0.div_div in *. change (64 * 64) with 4096 in *.
  change (4096 * 64) with 262144 in *.
  assert (v / 262144 < 64) by (apply N.Div0.div_lt_upper_bound; lia).
  assert (w / 262144 < 64) by (apply N.Div0.div_lt_upper_bound; lia).
  rewrite (N.mod_small (v / 262144)) in * by lia.
  rewrite (N.mod_small (w / 262144)) in * by lia.
  lia.
Qed.

Lemma b64char_mod (v : N) : b64char v = b64char (v mod 64).
Proof. now rewrite b64char_land, land_63. Qed.

Lemma b64char_not_pad (v : N) : "="%char ≠ b64char v.
Proof. intros Heq. now apply (proj2 (b64char_spec v)). Qed.

Lemma low_sextet_zero (q : N) : b64char (q * 64) = b64char 0.
Proof. now rewrite b64char_mod, N.Div0.mod_mul. Qed.

Lemma shiftr6_mul (q : N) : N.shiftr (q * 64) 6 = q.
Proof. rewrite N.shiftr_div_pow2. change (2 ^ 6) with 64. now rewrite N.div_mul. Qed.

Lemma enc_1 (a : byte) :
  EncodeToString [a]
  = String (b64char (N.shiftr (N.shiftl (Byte.to_N a) 16) 18))
      (String (b64char (N.shiftr (N.shiftl (Byte.to_N a) 16) 12))
         (String "=" (String "=" EmptyString))).
Proof. reflexivity. Qed.

Lemma enc_2 (a b : byte) :
  EncodeToString [a; b]
  = let v := N.lor (N.shiftl (Byte.to_N a) 16) (N.shiftl (Byte.to_N b) 8) in
    String (b64char (N.shiftr v 18)) (String (b64char (N.shiftr v 12))
      (String (b64char (N.shiftr v 6)) (String "=" EmptyString))).
Proof. reflexivity. Qed.

Lemma enc_3 (a b c : byte) (l : list byte) :
  EncodeToString (a :: b :: c :: l)
  = let v := N.lor (N.lor (N.shiftl (Byte.to_N a) 16) (N.shiftl (Byte.to_N b) 8))
                   (Byte.to_N c) in
    String (b64char (N.shiftr v 18)) (String (b64char (N.shiftr v 12))
      (String (b64char (N.shiftr v 6)) (String (b64char v) (EncodeToString l)))).
Proof. reflexivity. Qed.

Lemma EncodeToString_inj (a b : list byte) :
  EncodeToString a = EncodeToString b -> a = b.
Proof.
  revert b. induction a as [| x | x x2 | x x2 x3 l IH] using list_ind3;
    intros [| y [| y2 [| y3 l']]] Heq; try reflexivity;
    rewrite ?enc_1, ?enc_2, ?enc_3 in Heq; cbv zeta in Heq;
    try discriminate Heq;
    rewrite ?group_value, ?group_value2, ?group_value1 in Heq;
    pose proof (to_N_lt x) as Hx; pose proof (to_N_lt y) as Hy.
  - (* one byte, one byte *)
    injection Heq as H1 H2.
    assert (Hv : Byte.to_N x * 65536 = Byte.to_N y * 65536).
    { apply sextets_inj; try lia; try assumption.
      - replace (Byte.to_N x * 65536) with (Byte.to_N x * 1024 * 64) by lia.
        replace (Byte.to_N y * 65536) with (Byte.to_N y * 1024 * 64) by lia.
        rewrite !shiftr6_mul.
        replace (Byte.to_N x * 1024) with (Byte.to_N x * 16 * 64) by lia.
        replace (Byte.to_N y * 1024) with (Byte.to_N y * 16 * 64) by lia.
        now rewrite !low_sextet_zero.
      - replace (Byte.to_N x * 65536) with (Byte.to_N x * 1024 * 64) by lia.
        replace (Byte.to_N y * 65536) with (Byte.to_N y * 1024 * 64) by lia.
        now rewrite !low_sextet_zero. }
    f_equal. apply to_N_inj. lia.
  - injection Heq as _ _ H3. now apply b64char_not_pad in H3.
  - injection Heq as _ _ H3. now apply b64char_not_pad in H3.
  - injection Heq as _ _ H3. symmetry in H3. now apply b64char_not_pad in H3.
  - (* two bytes, two bytes *)
    pose proof (to_N_lt x2) as Hx2. pose proof (to_N_lt y2) as Hy2.
    injection Heq as H1 H2 H3.
    assert (Hv : Byte.to_N x * 65536 + Byte.to_N x2 * 256
                 = Byte.to_N y * 65536 + Byte.to_N y2 * 256).
    { apply sextets_inj; try lia; try assumption.
      replace (Byte.to_N x * 65536 + Byte.to_N x2 * 256)
        with ((Byte.to_N x * 1024 + Byte.to_N x2 * 4) * 64) by lia.
      replace (Byte.to_N y * 65536 + Byte.to_N y2 * 256)
        with ((Byte.to_N y * 1024 + Byte.to_N y2 * 4) * 64) by lia.
      now rewrite !low_sextet_zero. }
    assert (Byte.to_N x = Byte.to_N y /\ Byte.to_N x2 = Byte.to_N y2) as [E1 E2] by lia.
    apply to_N_inj in E1, E2. now subst.
  - injection Heq as _ _ _ H4. now apply b64char_not_pad in H4.
  - injection Heq as _ _ H3. symmetry in H3. now apply b64char_not_pad in H3.
  - injection Heq as _ _ _ H4. symmetry in H4. now apply b64char_not_pad in H4.
  - (* three bytes and more *)
    pose proof (to_N_lt x2) as Hx2. pose proof (to_N_lt y2) as Hy2.
    pose proof (to_N_lt x3) as Hx3. pose proof (to_N_lt y3) as Hy3.
    injection Heq as H1 H2 H3 H4 Hrest.
    assert (Hv : Byte.to_N x * 65536 + Byte.to_N x2 * 256 + Byte.to_N x3
                 = Byte.to_N y * 65536 + Byte.to_N y2 * 256 + Byte.to_N y3)
      by (apply sextets_inj; try lia; assumption).
    assert (Byte.to_N x = Byte.to_N y /\ Byte.to_N x2 = Byte.to_N y2
            /\ Byte.to_N x3 = Byte.to_N y3) as (E1 & E2 & E3) by lia.
    apply to_N_inj in E1, E2, E3. subst. f_equal. f_equal. f_equal.
    now apply IH.
Qed.

Lemma StringToByteSlice_inj (k1 k2 : string) :
  StringToByteSlice k1 = StringToByteSlice k2 -> k1 = k2.
Proof.
  unfold StringToByteSlice. intros Heq.
  rewrite <- (string_of_list_byte_of_string k1), Heq.
  apply string_of_list_byte_of_string.
Qed.

End Base64.

(** ** The two backends, side by side *)

Lemma prefix_split (p s : string) :
  String.prefix p s = true -> s = p +:+ drop_string (String.length p) s.
Proof.
  revert s. induction p as [|c p IH]; intros s Hp; [reflexivity |].
  destruct s as [|c' s]; [discriminate |]. cbn in Hp.
  destruct (ascii_dec c c') as [<- |]; [| discriminate].
  cbn [String.length drop_string]. rewrite string_app_cons. f_equal. now apply IH.
Qed.

Section SideBySide.
Context `{Deriver} `{Json} `{!JsonRoundTrip}.

Lemma agree_update (u : CaddyUpstream.t) (m m' : gmap string Traffic)
    (tb tb' : table) (key0 : string) :
  agree u m tb ->
  (forall key, key ≠ key0 -> m' !! key = m !! key) ->
  (forall key, key ≠ key0 ->
     data tb' !! (CaddyUpstream.Prefix u +:+ key)
     = data tb !! (CaddyUpstream.Prefix u +:+ key)) ->
  match m' !! key0 with
  | Some t => holds u tb' key0 t /\ int64_range (Up t) /\ int64_range (Down t)
  | None => data tb' !! (CaddyUpstream.Prefix u +:+ key0) = None
  end ->
  agree u m' tb'.
Proof.
  intros Hag Hm Hd Hk0 key. destruct (decide (key = key0)) as [-> | Hne]; [exact Hk0 |].
  specialize (Hag key). rewrite (Hm key Hne).
  destruct (m !! key) as [t |].
  - destruct Hag as ((b & Hb & Hdec) & Hr). split; [| exact Hr].
    exists b. now rewrite (Hd key Hne).
  - now rewrite (Hd key Hne).
Qed.

Lemma agree_add (u : CaddyUpstream.t) (m : gmap string Traffic) (tb : table)
    (k : string) :
  agree u m tb ->
  m !! EncodeToString (StringToByteSlice k) = None ->
  agree u (<[EncodeToString (StringToByteSlice k) := Traffic_zero]> m)
          (state_after (CaddyUpstream.AddKey u k) tb).
Proof.
  intros Hag Hno. pose proof (Hag (EncodeToString (StringToByteSlice k))) as Hk.
  rewrite Hno in Hk.
  unfold state_after. rewrite AddKey_table, Hk.
  rewrite bool_decide_eq_false_2 by (intros [? ?]; congruence).
  destruct Marshal_zero_ok as (b0 & Hm0 & Hu0). rewrite Hm0. cbn [fst snd].
  apply (agree_update u m _ tb _ (EncodeToString (StringToByteSlice k)) Hag).
  - intros key Hne. now apply lookup_insert_ne.
  - intros key Hne. cbn [data]. apply lookup_insert_ne. now apply prefixed_ne.
  - rewrite lookup_insert_eq. split; [| split; apply int64_range_0].
    exists b0. cbn [data]. now rewrite lookup_insert_eq.
Qed.

Lemma agree_del (u : CaddyUpstream.t) (m : gmap string Traffic) (tb : table)
    (k : string) :
  agree u m tb ->
  agree u (delete (EncodeToString (StringToByteSlice k)) m)
          (state_after (CaddyUpstream.DelKey u k) tb).
Proof.
  intros Hag. unfold state_after. rewrite DelKey_table.
  destruct (bool_decide _) eqn:Ex; cbn [fst snd].
  - apply (agree_update u m _ tb _ (EncodeToString (StringToByteSlice k)) Hag).
    + intros key Hne. now apply lookup_delete_ne.
    + intros key Hne. cbn [data]. apply lookup_delete_ne. now apply prefixed_ne.
    + rewrite lookup_delete_eq. cbn [data]. apply lookup_delete_eq.
  - apply bool_decide_eq_false in Ex.
    apply (agree_update u m _ tb _ (EncodeToString (StringToByteSlice k)) Hag).
    + intros key Hne. now apply lookup_delete_ne.
    + reflexivity.
    + rewrite lookup_delete_eq.
      destruct (data tb !! _) eqn:E; [exfalso; eauto | reflexivity].
Qed.

Lemma agree_consume (u : CaddyUpstream.t) (m : gmap string Traffic) (tb : table)
    (k : string) (nr nw : Z) :
  agree u m tb ->
  is_Some (m !! lookup_key k) ->
  agree u (mem_step (CallConsume k nr nw) m)
          (state_after (CaddyUpstream.Consume u k nr nw) tb).
Proof.
  intros Hag [t Ht]. pose proof (Hag (lookup_key k)) as Hk. rewrite Ht in Hk.
  destruct Hk as ((b & Hb & Hdec) & Hr).
  unfold state_after. rewrite Consume_table, Hb, Hdec.
  set (t' := {| Up := int64_add (Up t) nr; Down := int64_add (Down t) nw |}).
  destruct (Marshal_ok t' (wrap64_range _) (wrap64_range _)) as (b' & Hm' & Hu').
  rewrite Hm'. cbn [fst snd mem_step]. rewrite Ht. cbn [default from_option id].
  fold t'.
  apply (agree_update u m _ tb _ (lookup_key k) Hag).
  - intros key Hne. now apply lookup_insert_ne.
  - intros key Hne. cbn [relocked data]. apply lookup_insert_ne. now apply prefixed_ne.
  - rewrite lookup_insert_eq. split; [| split; apply wrap64_range].
    exists b'. cbn [relocked data]. now rewrite lookup_insert_eq.
Qed.

Lemma agree_step (u : CaddyUpstream.t) (m : gmap string Traffic) (tb : table)
    (c : call) :
  agree u m tb -> shared m c = true ->
  agree u (mem_step c m) (state_after (CaddyUpstream.exec u c) tb).
Proof.
  intros Hag Hs.
  destruct c as [s | k | s | k | | k | k nr nw]; cbn [CaddyUpstream.exec shared] in *;
    try (unfold mbind, mret, prog_bind, prog_ret; rewrite state_after_bind;
         cbn [state_after run_prog fst snd]; fold (@state_after table _)).
  - apply bool_decide_eq_true in Hs. rewrite Add_is_AddKey_derived.
    now apply agree_add.
  - apply bool_decide_eq_true in Hs. now apply agree_add.
  - rewrite Del_is_DelKey_derived. now apply agree_del.
  - now apply agree_del.
  - now rewrite Range_table_state.
  - unfold state_after. now rewrite Validate_table.
  - apply bool_decide_eq_true in Hs. now apply agree_consume.
Qed.

Lemma agree_validate (u : CaddyUpstream.t) (m : gmap string Traffic) (tb : table)
    (k : string) :
  agree u m tb ->
  exists b,
    MemoryUpstream.Validate {| MemoryUpstream.mm := Some m |} k
    = MemoryUpstream.Returns b {| MemoryUpstream.mm := Some m |}
    /\ fst (fst (run_prog (CaddyUpstream.Validate u k) tb)) = b.
Proof.
  intros Hag. eexists. split; [apply Validate_alloc |].
  rewrite Validate_table. cbn [fst]. specialize (Hag (lookup_key k)).
  destruct (m !! lookup_key k) as [t |].
  - destruct Hag as ((b & Hb & _) & _). rewrite Hb.
    rewrite !bool_decide_eq_true_2; eauto.
  - rewrite Hag. rewrite !bool_decide_eq_false_2; try reflexivity;
      intros [? ?]; congruence.
Qed.

Lemma agree_range (u : CaddyUpstream.t) (m : gmap string Traffic) (tb : table) :
  agree u m tb ->
  exists vs,
    MemoryUpstream.Range {| MemoryUpstream.mm := Some m |}
    = MemoryUpstream.Returns vs {| MemoryUpstream.mm := Some m |}
    /\ visits (snd (run_prog (CaddyUpstream.Range u) tb)) ≡ₚ vs.
Proof.
  intros Hag. eexists. split; [reflexivity |]. cbn [go_range MemoryUpstream.mm].
  unfold CaddyUpstream.Range. prog_unfold. cbn [run_prog impl_List table_impl].
  set (P := CaddyUpstream.Prefix u).
  set (keys := filter (fun k => String.prefix P k = true) (map fst (map_to_list (data tb)))).
  set (rec := fun k : string => default Traffic_zero (m !! TrimPrefix k P)).
  assert (Hkeys : forall k, k ∈ keys ->
            exists k' t b, k = P +:+ k' /\ TrimPrefix k P = k' /\ m !! k' = Some t
                           /\ data tb !! k = Some b
                           /\ forall cur, json_Unmarshal b cur = (t, None)).
  { intros k Hk. apply list_elem_of_filter in Hk as [Hp Hin].
    apply list_elem_of_In, in_map_iff in Hin as ([k0 b] & Hk0 & Hin). cbn in Hk0. subst k0.
    apply list_elem_of_In, elem_of_map_to_list in Hin.
    pose proof (prefix_split P k Hp) as Hsplit.
    set (k' := drop_string (String.length P) k) in *.
    exists k'. specialize (Hag k'). fold P in Hag.
    destruct (m !! k') as [t |]; [| rewrite <- Hsplit in Hag; congruence].
    destruct Hag as ((b' & Hb' & Hdec) & _). fold P in Hb'.
    rewrite <- Hsplit, Hin in Hb'. injection Hb' as <-.
    exists t, b. repeat split; auto.
    rewrite Hsplit. apply TrimPrefix_app. }
  assert (Hall : Forall (fun k => exists b, data tb !! k = Some b
                   /\ forall cur, json_Unmarshal b cur = (rec k, None)) keys).
  { apply Forall_forall. intros k Hk.
    destruct (Hkeys k Hk) as (k' & t & b & _ & Htrim & Hm & Hb & Hdec).
    exists b. split; [exact Hb |]. unfold rec. now rewrite Htrim, Hm. }
  destruct (Range_loop_table u rec tb keys Traffic_zero Hall) as [_ Hv].
  destruct (run_prog (CaddyUpstream.Range_loop u keys Traffic_zero) tb) as [[r tb'] tr].
  cbn [snd] in *.
  change (visits (EvList P false (inl keys) :: tr)) with (visits tr). rewrite Hv.
  fold P.
  apply NoDup_Permutation.
  - apply (NoDup_fmap_1 (fun v : visit => fst (fst v))).
    rewrite <- list_fmap_compose.
    apply NoDup_fmap_2_strong.
    + intros k1 k2 Hi1 Hi2 Heq. unfold compose in Heq. cbn [fst] in Heq. fold P in Heq.
      destruct (Hkeys k1 Hi1) as (k1' & _ & _ & -> & Ht1 & _).
      destruct (Hkeys k2 Hi2) as (k2' & _ & _ & -> & Ht2 & _).
      rewrite Ht1, Ht2 in Heq. now subst.
    + unfold keys. apply NoDup_filter, NoDup_fst_map_to_list.
  - apply (NoDup_fmap_1 (fun v : visit => fst (fst v))).
    rewrite <- list_fmap_compose. apply NoDup_fst_map_to_list.
  - intros [[k' up] down]. rewrite !list_elem_of_In, !in_map_iff. split.
    + intros (k & [= <- <- <-] & Hk). apply list_elem_of_In in Hk.
      destruct (Hkeys k Hk) as (k' & t & b & _ & Htrim & Hm & _).
      exists (k', t). unfold rec. rewrite Htrim, Hm. split; [reflexivity |].
      now apply list_elem_of_In, elem_of_map_to_list.
    + intros ([k0 t] & [= <- <- <-] & Hin).
      apply list_elem_of_In, elem_of_map_to_list in Hin.
      pose proof (Hag k0) as Hk0. rewrite Hin in Hk0.
      destruct Hk0 as ((b & Hb & _) & _).
      exists (P +:+ k0). unfold rec. rewrite TrimPrefix_app, Hin.
      split; [reflexivity |]. apply list_elem_of_In, list_elem_of_filter.
      split; [apply prefix_app |].
      apply list_elem_of_In, in_map_iff. exists (P +:+ k0, b).
      split; [reflexivity |]. now apply list_elem_of_In, elem_of_map_to_list.
Qed.

(** X10: the two backends are interchangeable on the calls they are
    written alike for. From an allocated in-memory table and a table
    storage that agree, a sequence of calls in which [AddKey] and [Add]
    meet no existing entry and [Consume] meets no missing one runs
    without a panic in memory and leaves the two in agreement: then
    [Validate] returns the same answer on both for every argument, and
    [Range] makes the same visits, up to their order. *)
Theorem backends_agree (u : CaddyUpstream.t) (m : gmap string Traffic) (tb : table)
    (cs : list call) (k : string) :
  agree u m tb ->
  shared_run m cs = true ->
  exists m',
    MemoryUpstream.run {| MemoryUpstream.mm := Some m |} cs
    = MemoryUpstream.Returns tt {| MemoryUpstream.mm := Some m' |}
    /\ agree u m' (state_after (CaddyUpstream.run u cs) tb)
    /\ (exists b,
          MemoryUpstream.Validate {| MemoryUpstream.mm := Some m' |} k
          = MemoryUpstream.Returns b {| MemoryUpstream.mm := Some m' |}
          /\ fst (fst (run_prog (CaddyUpstream.Validate u k)
                         (state_after (CaddyUpstream.run u cs) tb))) = b)
    /\ (exists vs,
          MemoryUpstream.Range {| MemoryUpstream.mm := Some m' |}
          = MemoryUpstream.Returns vs {| MemoryUpstream.mm := Some m' |}
          /\ visits (snd (run_prog (CaddyUpstream.Range u)
                            (state_after (CaddyUpstream.run u cs) tb))) ≡ₚ vs).
Proof.
  intros Hag Hs.
  assert (Hrun : exists m',
    MemoryUpstream.run {| MemoryUpstream.mm := Some m |} cs
    = MemoryUpstream.Returns tt {| MemoryUpstream.mm := Some m' |}
    /\ agree u m' (state_after (CaddyUpstream.run u cs) tb)).
  { revert m tb Hag Hs. induction cs as [|c cs IH]; intros m tb Hag Hs.
    - exists m. now split.
    - cbn [shared_run] in Hs. apply andb_true_iff in Hs as [Hc Hcs].
      destruct (IH _ _ (agree_step u m tb c Hag Hc) Hcs) as (m' & Hrun & Hag').
      exists m'. split.
      + cbn [MemoryUpstream.run]. now rewrite exec_alloc.
      + cbn [CaddyUpstream.run]. unfold mbind, prog_bind. now rewrite state_after_bind. }
  destruct Hrun as (m' & Hrun & Hag'). exists m'.
  split; [exact Hrun |]. split; [exact Hag' |].
  split; [now apply agree_validate | now apply agree_range].
Qed.

End SideBySide.

Section DistinctKeys.
Context `{Json}.

(** X9: the encoding of keys is injective, so two different strings
    never name the same entry: [AddKey] and [DelKey] called with
    different arguments work on different entries. In memory (on an
    allocated table) and in the persistent backend (on the table
    storage), [DelKey(k2)] leaves the entry [AddKey(k1)] made. *)
Theorem distinct_keys_distinct_entries
    (m : gmap string Traffic) (u : CaddyUpstream.t) (tb : table) (k1 k2 : string) :
  k1 ≠ k2 ->
  EncodeToString (StringToByteSlice k1) ≠ EncodeToString (StringToByteSlice k2)
  /\ (exists u1 u2,
        MemoryUpstream.AddKey {| MemoryUpstream.mm := Some m |} k1
        = MemoryUpstream.Returns None u1
        /\ MemoryUpstream.DelKey u1 k2 = MemoryUpstream.Returns None u2
        /\ go_index (MemoryUpstream.mm u2) (EncodeToString (StringToByteSlice k1))
           = (Traffic_zero, true))
  /\ (let key1 := CaddyUpstream.Prefix u +:+ EncodeToString (StringToByteSlice k1) in
      let '(_, tb1, _) := run_prog (CaddyUpstream.DelKey u k2) tb in
      data tb1 !! key1 = data tb !! key1).
Proof.
  intros Hne.
  assert (Henc : EncodeToString (StringToByteSlice k1)
                 ≠ EncodeToString (StringToByteSlice k2)).
  { intros Heq. apply Hne. now apply StringToByteSlice_inj, EncodeToString_inj. }
  split; [exact Henc |]. split.
  - do 2 eexists. rewrite AddKey_alloc, DelKey_alloc. split; [reflexivity |].
    split; [reflexivity |]. cbn [MemoryUpstream.mm go_index].
    rewrite lookup_delete_ne by congruence. now rewrite lookup_insert_eq.
  - intros key1. rewrite DelKey_table.
    destruct (bool_decide _); [| reflexivity]. cbn [data].
    apply lookup_delete_ne. apply prefixed_ne. congruence.
Qed.

End DistinctKeys.

Section RoundTrips.
Context `{Deriver} `{Json} `{!JsonRoundTrip}.

(** X13: for an argument whose length is not [AuthLen], [AddKey],
    [Validate] and [Consume] agree on the key: [Validate(k)] after
    [AddKey(k)] returns true and [Consume(k, nr, nw)] adds to the entry
    [AddKey(k)] made. In memory on an allocated table; for the
    persistent backend on the table storage, for an entry that did not
    exist and deltas in the range of [int64]. *)
Theorem addkey_then_validate_consume
    (m : gmap string Traffic) (u : CaddyUpstream.t) (tb : table) (k : string)
    (nr nw : Z) :
  len k ≠ AuthLen ->
  int64_range nr -> int64_range nw ->
  data tb !! (CaddyUpstream.Prefix u +:+ EncodeToString (StringToByteSlice k)) = None ->
  let enc := EncodeToString (StringToByteSlice k) in
  (exists u1 u2,
     MemoryUpstream.AddKey {| MemoryUpstream.mm := Some m |} k
     = MemoryUpstream.Returns None u1
     /\ MemoryUpstream.Validate u1 k = MemoryUpstream.Returns true u1
     /\ MemoryUpstream.Consume u1 k nr nw = MemoryUpstream.Returns None u2
     /\ go_index (MemoryUpstream.mm u2) enc = ({| Up := nr; Down := nw |}, true))
  /\ (let '(r1, tb1, _) := run_prog (CaddyUpstream.AddKey u k) tb in
      let '(r2, tb2, _) := run_prog (CaddyUpstream.Consume u k nr nw) tb1 in
      r1 = None /\ r2 = None
      /\ fst (fst (run_prog (CaddyUpstream.Validate u k) tb1)) = true
      /\ holds u tb2 enc {| Up := nr; Down := nw |}).
Proof.
  intros Hk Hnr Hnw Hno enc. subst enc. split.
  - exists {| MemoryUpstream.mm :=
                Some (<[EncodeToString (StringToByteSlice k) := Traffic_zero]> m) |}.
    exists {| MemoryUpstream.mm :=
                Some (<[EncodeToString (StringToByteSlice k) :=
                          {| Up := nr; Down := nw |}]> m) |}.
    split; [apply AddKey_alloc |].
    rewrite Validate_alloc, Consume_alloc, (lookup_key_other k Hk).
    rewrite lookup_insert_eq, insert_insert_eq.
    cbn [default from_option id Up Down Traffic_zero MemoryUpstream.mm go_index].
    rewrite (int64_add_0_l nr Hnr), (int64_add_0_l nw Hnw), lookup_insert_eq.
    repeat split; reflexivity.
  - rewrite AddKey_table.
    rewrite Hno, bool_decide_eq_false_2 by (intros [? ?]; congruence).
    destruct Marshal_zero_ok as (b0 & Hm0 & Hu0). rewrite Hm0.
    rewrite Consume_table, Validate_table, (lookup_key_other k Hk).
    cbn [data fst]. rewrite lookup_insert_eq, Hu0. cbn [Up Down Traffic_zero].
    rewrite (int64_add_0_l nr Hnr), (int64_add_0_l nw Hnw).
    destruct (Marshal_ok {| Up := nr; Down := nw |} Hnr Hnw) as (b1 & Hm1 & Hu1).
    rewrite Hm1. split; [reflexivity |]. split; [reflexivity |].
    split; [apply bool_decide_eq_true; eauto |].
    exists b1. cbn [relocked data]. rewrite lookup_insert_eq. now split.
Qed.

(** X12: [Add] followed by [Del] of the same secret is a round trip on a
    ledger that did not hold the entry: the in-memory table and the
    table storage are left as they were. *)
Theorem add_then_del_restores
    (m : gmap string Traffic) (u : CaddyUpstream.t) (tb : table) (s : string) :
  m !! canonical_key s = None ->
  data tb !! (CaddyUpstream.Prefix u +:+ canonical_key s) = None ->
  (exists u1,
     MemoryUpstream.Add {| MemoryUpstream.mm := Some m |} s
     = MemoryUpstream.Returns None u1
     /\ MemoryUpstream.Del u1 s
        = MemoryUpstream.Returns None {| MemoryUpstream.mm := Some m |})
  /\ (let '(r1, tb1, _) := run_prog (CaddyUpstream.Add u s) tb in
      let '(r2, tb2, _) := run_prog (CaddyUpstream.Del u s) tb1 in
      r1 = None /\ r2 = None /\ data tb2 = data tb /\ held tb2 = held tb).
Proof.
  intros Hm Hno. split.
  - eexists. rewrite Add_alloc. split; [reflexivity |].
    rewrite Del_alloc, delete_insert_id by exact Hm. reflexivity.
  - rewrite Add_is_AddKey_derived, AddKey_table. fold (canonical_key s).
    rewrite Hno, bool_decide_eq_false_2 by (intros [? ?]; congruence).
    destruct Marshal_zero_ok as (b0 & Hm0 & _). rewrite Hm0.
    rewrite Del_is_DelKey_derived, DelKey_table. fold (canonical_key s).
    cbn [data]. rewrite lookup_insert_eq.
    rewrite bool_decide_eq_true_2 by eauto. cbn [data held].
    repeat split. now apply delete_insert_id.
Qed.

End RoundTrips.

Section Namespace.
Context `{Deriver} `{Json}.

(** X11: once provisioned, the persistent backend keeps to the
    namespace trojan/: whatever the storage answers and whatever prefix
    the value held before, every key a call other than [Range] names
    starts with it, and [Range] lists that prefix. *)
Theorem provisioned_namespace {S : Type} `{StorageImpl S}
    (u0 : CaddyUpstream.t) (c : call) (s : S) :
  let u := CaddyUpstream.Provision u0 in
  CaddyUpstream.Prefix u = "trojan/"%string
  /\ Forall (fun e =>
               match c, e with
               | CallRange, EvList p r _ => p = "trojan/"%string /\ r = false
               | CallRange, _ => True
               | _, _ => exists k, event_key e = Some ("trojan/" +:+ k)%string
               end)
            (snd (run_prog (CaddyUpstream.exec u c) s)).
Proof.
  intros u. split; [reflexivity |].
  eapply Forall_impl; [apply prog_events_run, exec_events |].
  intros e Ha.
  destruct c, e; cbn [allowed target_key option_map event_key] in *;
    try contradiction; try exact I; try exact Ha;
    injection Ha as ->; eauto.
Qed.

End Namespace.

Section StaleRecord.
Context `{Json}.

(** X14: [Range] decodes every stored value into one record, declared
    before the loop. The visitor is given what the decoder leaves in
    that record: for two keys in a row, when decoding the bytes of the
    second leaves the record as the first decoding made it (as a decoder
    does for an object without the two members), the second key is
    reported with the counters of the first. *)
Theorem range_reuses_record (u : CaddyUpstream.t) (tb : table)
    (k1 k2 : string) (b1 b2 : list byte) (t1 : Traffic) :
  data tb !! k1 = Some b1 ->
  data tb !! k2 = Some b2 ->
  json_Unmarshal b1 Traffic_zero = (t1, None) ->
  json_Unmarshal b2 t1 = (t1, None) ->
  run_prog (CaddyUpstream.Range_loop u [k1; k2] Traffic_zero) tb
  = (tt, tb,
     [EvLoad k1 (inl b1);
      EvFn (TrimPrefix k1 (CaddyUpstream.Prefix u)) (Up t1) (Down t1);
      EvLoad k2 (inl b2);
      EvFn (TrimPrefix k2 (CaddyUpstream.Prefix u)) (Up t1) (Down t1)]).
Proof.
  intros H1 H2 Hd1 Hd2. cbn [CaddyUpstream.Range_loop]. prog_unfold.
  cbn [run_prog impl_Load table_impl]. rewrite H1, Hd1.
  cbn [bind run_prog impl_Load table_impl]. rewrite H2, Hd2. reflexivity.
Qed.

End StaleRecord.

(** ** The mutex of the in-memory ledger *)

Section MemoryMutex.
Import LockedMemoryUpstream.
Context `{Deriver}.

Ltac run_M :=
  cbv [AddKey Add DelKey Del Validate Consume Range exec on_mu index assign delete
       entries mbind mret M_bind M_ret mu mm
       RWMutex.Lock RWMutex.Unlock RWMutex.RLock RWMutex.RUnlock
       RWMutex.writer RWMutex.readers RWMutex.zero].

Lemma Range_loop_idle (fn : string -> Z -> Z -> M unit) (kvs : list (string * Traffic))
    (u : t) :
  (forall k up down, fn k up down u = Done tt u) ->
  Range_loop fn kvs u = Done tt u.
Proof.
  intros Hfn. induction kvs as [|[k v] kvs IH]; [reflexivity |].
  cbn [Range_loop]. unfold mbind, M_bind. rewrite Hfn. exact IH.
Qed.

(** X15: with the mutex free, every method of the in-memory backend
    does what it does without the mutex and gives the mutex back: it
    returns the same value and leaves the same map with the mutex free,
    or panics where the method without the mutex panics (an assignment
    to the nil map). [Range] with a visitor that leaves the upstream as
    it is returns with the value unchanged. *)
Theorem memory_mutex_released (o : option (gmap string Traffic)) (k s : string)
    (nr nw : Z) :
  let u := {| mu := RWMutex.zero; mm := o |} in
  let v := {| MemoryUpstream.mm := o |} in
  same_outcome (AddKey k u) (MemoryUpstream.AddKey v k)
  /\ same_outcome (Add s u) (MemoryUpstream.Add v s)
  /\ same_outcome (DelKey k u) (MemoryUpstream.DelKey v k)
  /\ same_outcome (Del s u) (MemoryUpstream.Del v s)
  /\ same_outcome (Validate k u) (MemoryUpstream.Validate v k)
  /\ same_outcome (Consume k nr nw u) (MemoryUpstream.Consume v k nr nw)
  /\ forall fn : string -> Z -> Z -> M unit,
       (forall k' up down u', fn k' up down u' = Done tt u') ->
       Range fn u = Done tt u.
Proof.
  intros u v. subst u v.
  assert (Hkey : forall key : string,
            same_outcome (AddKey key {| mu := RWMutex.zero; mm := o |})
              (MemoryUpstream.AddKey {| MemoryUpstream.mm := o |} key)
            /\ same_outcome (DelKey key {| mu := RWMutex.zero; mm := o |})
                 (MemoryUpstream.DelKey {| MemoryUpstream.mm := o |} key)).
  { intros key. destruct o as [m |]; now repeat split. }
  split; [apply Hkey |]. split; [apply Hkey |].
  split; [apply Hkey |]. split; [apply Hkey |].
  split; [| split].
  - unfold Validate, MemoryUpstream.Validate.
    destruct (decide (len k ≠ AuthLen)); run_M; cbn [MemoryUpstream.mm];
      destruct (go_index o _) as [t' ok]; now repeat split.
  - unfold Consume, MemoryUpstream.Consume.
    destruct (decide (len k ≠ AuthLen)); run_M; cbn [MemoryUpstream.mm];
      destruct o as [m |]; now repeat split.
  - intros fn Hfn. run_M. rewrite Range_loop_idle by (intros; apply Hfn). reflexivity.
Qed.

(** X16: no method defers its unlock, so a panic keeps the mutex. On the
    value the module constructor returns (free mutex, nil map) [AddKey],
    [Add] and [Consume] panic holding the mutex for writing, and on what
    they leave every method waits for ever, the reading ones included. *)
Theorem memory_panic_keeps_mutex (k s : string) (nr nw : Z) (c : call)
    (fn : string -> Z -> Z -> M unit) :
  let stuck := {| mu := {| RWMutex.writer := true; RWMutex.readers := 0 |};
                  mm := None |} in
  AddKey k New = Panic stuck
  /\ Add s New = Panic stuck
  /\ Consume k nr nw New = Panic stuck
  /\ exec c stuck = Waits
  /\ Range fn stuck = Waits
  /\ Validate k stuck = Waits.
Proof.
  intros stuck. subst stuck.
  split; [reflexivity |]. split; [reflexivity |]. split.
  { unfold Consume. destruct (decide (len k ≠ AuthLen)); reflexivity. }
  split; [destruct c; reflexivity |]. split; reflexivity.
Qed.

Lemma exec_reader (c : call) (u : t) :
  writes c = false -> RWMutex.writer (mu u) = false -> exec c u = Done tt u.
Proof.
  intros Hc Hw. destruct u as [[w n] o]. cbn [mu RWMutex.writer] in Hw. subst w.
  destruct c; try discriminate Hc.
  - run_M. rewrite Range_loop_idle by reflexivity. reflexivity.
  - unfold exec, Validate. destruct (decide (len k ≠ AuthLen)); reflexivity.
Qed.

Lemma exec_writer (c : call) (u : t) :
  writes c = true -> RWMutex.readers (mu u) ≠ O -> exec c u = Waits.
Proof.
  intros Hc Hr. destruct u as [[w n] o]. cbn [mu RWMutex.readers] in Hr.
  destruct n as [|n]; [congruence |].
  destruct c; try discriminate Hc; destruct w;
    try reflexivity;
    unfold exec, Consume; destruct (decide (len k ≠ AuthLen)); reflexivity.
Qed.

(** X17: [Range] calls its visitor with the mutex held for reading. On
    an allocated table with an entry, a visitor that calls a method which
    takes the mutex for writing ([Add], [AddKey], [Del], [DelKey],
    [Consume]) makes [Range] wait for ever; with a visitor that calls
    the reading methods ([Validate], [Range]) it returns and the mutex is
    free again. *)
Theorem memory_range_visitor (m : gmap string Traffic)
    (inner : string -> Z -> Z -> call) (b : bool) :
  m ≠ ∅ ->
  (forall k up down, writes (inner k up down) = b) ->
  let u := {| mu := RWMutex.zero; mm := Some m |} in
  Range (fun k up down => exec (inner k up down)) u
  = if b then Waits else Done tt u.
Proof.
  intros Hm Hin u. subst u. unfold Range, entries, on_mu, mbind, M_bind.
  cbn [mu mm RWMutex.RLock RWMutex.zero RWMutex.writer RWMutex.readers go_range].
  destruct b.
  - destruct (map_to_list m) as [|[k v] kvs] eqn:Hl.
    + apply map_to_list_empty_iff in Hl. contradiction.
    + cbn [Range_loop]. unfold mbind, M_bind.
      rewrite exec_writer; [reflexivity | apply Hin | discriminate].
  - rewrite Range_loop_idle; [reflexivity |].
    intros k up down. apply exec_reader; [apply Hin | reflexivity].
Qed.

End MemoryMutex.

(** ** The statements at concrete inputs

    The ledger with the derivation the source names and the text
    serialization, on the provisioned prefix and the empty table. *)

#[local] Existing Instance sha224_derive.
#[local] Existing Instance JsonText.json.
#[local] Existing Instance JsonTextFacts.json_text_round_trip.

(** The key of the comment in the source: the secret Test1234 is stored
    under 76 characters. *)
Example canonical_key_Test1234 :
  canonical_key "Test1234"
  = "OWU5NDRjOWZjMjEzNzU0YjQ5MzkzOWM5NDQ1YTk1NzhlOWI5MGUyZjhhZGVmNmI5MDE1ZTg1Mzk="%string
  /\ len (canonical_key "Test1234") = AuthLen.
Proof. vm_compute. split; reflexivity. Qed.

Lemma C1_add_then_validate_witness :
  let s := "Test1234"%string in
  let u := trojan_upstream in
  let m0 : gmap string Traffic := ∅ in
  (let u1 := {| MemoryUpstream.mm := Some (<[canonical_key s := Traffic_zero]> m0) |} in
   MemoryUpstream.Add {| MemoryUpstream.mm := Some m0 |} s = MemoryUpstream.Returns None u1
   /\ MemoryUpstream.Validate u1 (derived_key s) = MemoryUpstream.Returns true u1
   /\ MemoryUpstream.Validate u1 (canonical_key s) = MemoryUpstream.Returns true u1
   /\ MemoryUpstream.Validate u1 s
      = MemoryUpstream.Returns
          (bool_decide (is_Some ((<[canonical_key s := Traffic_zero]> m0) !! lookup_key s))) u1)
  /\ (let '(r1, tb1, _) := run_prog (CaddyUpstream.Add u s) empty_table in
      r1 = None
      /\ is_Some (data tb1 !! (CaddyUpstream.Prefix u +:+ canonical_key s))
      /\ run_prog (CaddyUpstream.Validate u (derived_key s)) tb1
         = (true, tb1, [EvExists (CaddyUpstream.Prefix u +:+ canonical_key s) true])
      /\ run_prog (CaddyUpstream.Validate u (canonical_key s)) tb1
         = (true, tb1, [EvExists (CaddyUpstream.Prefix u +:+ canonical_key s) true])
      /\ fst (fst (run_prog (CaddyUpstream.Validate u s) tb1))
         = bool_decide (is_Some (data tb1 !! (CaddyUpstream.Prefix u +:+ lookup_key s)))).
Proof.
  exact (C1_add_then_validate ∅ trojan_upstream empty_table "Test1234" "Test1234").
Defined.



Lemma C9_counters_monotone_witness :
  let u := trojan_upstream in
  let k := "a"%string in
  let key := "YQ=="%string in
  let rec := Traffic_zero in
  let m : gmap string Traffic := {[ key := rec ]} in
  let tb := state_after (CaddyUpstream.AddKey u k) empty_table in
  let cs1 := [CallConsume "a" 10 20; CallValidate "a"; CallRange] in
  let cs2 := [CallAdd "b"; CallConsume "a" 5 0; CallDelKey "zzz"] in
  let ds1 := [CallConsume "a" 10 20; CallAddKey "a"] in
  let ds2 := [CallRange; CallConsume "a" 5 0] in
  (int64_range (Up rec) /\ int64_range (Down rec)
   /\ m !! key = Some rec
   /\ holds u tb key rec
   /\ forallb (fun c => nonneg_deltas c && negb (creates key c) && negb (deletes key c))
              (cs1 ++ cs2) = true
   /\ Up rec + consumed_up key (cs1 ++ cs2) <= int64_max
   /\ Down rec + consumed_down key (cs1 ++ cs2) <= int64_max
   /\ forallb (fun c => nonneg_deltas c && negb (deletes key c)) (ds1 ++ ds2) = true
   /\ Up rec + consumed_up key (ds1 ++ ds2) <= int64_max
   /\ Down rec + consumed_down key (ds1 ++ ds2) <= int64_max
   /\ EncodeToString (StringToByteSlice k) = key)
  /\ (exists m1 m2 t1 t2,
        MemoryUpstream.run {| MemoryUpstream.mm := Some m |} cs1
        = MemoryUpstream.Returns tt {| MemoryUpstream.mm := Some m1 |}
        /\ MemoryUpstream.run {| MemoryUpstream.mm := Some m1 |} cs2
           = MemoryUpstream.Returns tt {| MemoryUpstream.mm := Some m2 |}
        /\ m1 !! key = Some t1 /\ m2 !! key = Some t2
        /\ Up rec <= Up t1 <= Up t2 /\ Down rec <= Down t1 <= Down t2
        /\ Up t2 = Up rec + consumed_up key (cs1 ++ cs2)
        /\ Down t2 = Down rec + consumed_down key (cs1 ++ cs2))
  /\ (exists t1 t2,
        holds u (state_after (CaddyUpstream.run u ds1) tb) key t1
        /\ holds u (state_after (CaddyUpstream.run u ds2)
                      (state_after (CaddyUpstream.run u ds1) tb)) key t2
        /\ Up rec <= Up t1 <= Up t2 /\ Down rec <= Down t1 <= Down t2
        /\ Up t2 = Up rec + consumed_up key (ds1 ++ ds2)
        /\ Down t2 = Down rec + consumed_down key (ds1 ++ ds2))
  /\ MemoryUpstream.AddKey {| MemoryUpstream.mm := Some m |} k
     = MemoryUpstream.Returns None
         {| MemoryUpstream.mm := Some (<[key := Traffic_zero]> m) |}
  /\ holds u (state_after (CaddyUpstream.AddKey u k) tb) key rec.
Proof.
  intros u k key rec m tb cs1 cs2 ds1 ds2.
  assert (Hu : int64_range (Up rec)) by exact int64_range_0.
  assert (Hd : int64_range (Down rec)) by exact int64_range_0.
  assert (Hm : m !! key = Some rec) by reflexivity.
  assert (Hh : holds u tb key rec).
  { eexists. split; [vm_compute; reflexivity |]. intros cur. vm_compute. reflexivity. }
  assert (Hcs : forallb (fun c => nonneg_deltas c && negb (creates key c) && negb (deletes key c))
                  (cs1 ++ cs2) = true) by (vm_compute; reflexivity).
  assert (Hcu : Up rec + consumed_up key (cs1 ++ cs2) <= int64_max)
    by (vm_compute; discriminate).
  assert (Hcd : Down rec + consumed_down key (cs1 ++ cs2) <= int64_max)
    by (vm_compute; discriminate).
  assert (Hds : forallb (fun c => nonneg_deltas c && negb (deletes key c)) (ds1 ++ ds2) = true)
    by (vm_compute; reflexivity).
  assert (Hdu : Up rec + consumed_up key (ds1 ++ ds2) <= int64_max)
    by (vm_compute; discriminate).
  assert (Hdd : Down rec + consumed_down key (ds1 ++ ds2) <= int64_max)
    by (vm_compute; discriminate).
  assert (Hk : EncodeToString (StringToByteSlice k) = key) by reflexivity.
  split; [now repeat split |].
  exact (C9_counters_monotone m u tb key k rec cs1 cs2 ds1 ds2
           Hu Hd Hm Hh Hcs Hcu Hcd Hds Hdu Hdd Hk).
Defined.


(** ** The further properties at concrete inputs *)

(** X2 at the call [Consume] of the string a and the entry of the
    string b. *)
Lemma memory_call_frame_witness :
  let c := CallConsume "a" 10 20 in
  let m : gmap string Traffic := {[ "Yg=="%string := {| Up := 1; Down := 2 |} ]} in
  let key := "Yg=="%string in
  target_key c ≠ Some key
  /\ exists m', MemoryUpstream.exec {| MemoryUpstream.mm := Some m |} c
                = MemoryUpstream.Returns tt {| MemoryUpstream.mm := Some m' |}
                /\ m' !! key = m !! key.
Proof.
  intros c m key.
  assert (Hne : target_key c ≠ Some key) by (vm_compute; discriminate).
  split; [exact Hne |]. pose proof (memory_call_frame c m key Hne) as Hthm. exact Hthm.
Defined.

(** X3 on the empty table. *)
Lemma memory_consume_creates_witness :
  let m : gmap string Traffic := ∅ in
  let k := "a"%string in
  m !! lookup_key k = None
  /\ exists u',
       MemoryUpstream.Validate {| MemoryUpstream.mm := Some m |} k
       = MemoryUpstream.Returns false {| MemoryUpstream.mm := Some m |}
       /\ MemoryUpstream.Consume {| MemoryUpstream.mm := Some m |} k 10 20
          = MemoryUpstream.Returns None u'
       /\ MemoryUpstream.Validate u' k = MemoryUpstream.Returns true u'
       /\ go_index (MemoryUpstream.mm u') (lookup_key k)
          = ({| Up := wrap64 10; Down := wrap64 20 |}, true).
Proof.
  intros m k.
  assert (Hno : m !! lookup_key k = None) by reflexivity.
  split; [exact Hno |]. pose proof (memory_consume_creates m k 10 20 Hno) as Hthm. exact Hthm.
Defined.

(** X7 for the secret Test1234. *)
Lemma both_key_forms_same_entry_witness :
  let m : gmap string Traffic := ∅ in
  let u := trojan_upstream in
  let tb := empty_table in
  let s := "Test1234"%string in
  (int64_range 10 /\ int64_range 20 /\ int64_range (10 + 5) /\ int64_range (20 + 0)
   /\ data tb !! (CaddyUpstream.Prefix u +:+ canonical_key s) = None)
  /\ (exists u1 u2 u3 vs,
        MemoryUpstream.Add {| MemoryUpstream.mm := Some m |} s
        = MemoryUpstream.Returns None u1
        /\ MemoryUpstream.Consume u1 (derived_key s) 10 20 = MemoryUpstream.Returns None u2
        /\ MemoryUpstream.Consume u2 (canonical_key s) 5 0 = MemoryUpstream.Returns None u3
        /\ go_index (MemoryUpstream.mm u3) (canonical_key s)
           = ({| Up := 10 + 5; Down := 20 + 0 |}, true)
        /\ MemoryUpstream.Validate u3 (canonical_key s) = MemoryUpstream.Returns true u3
        /\ MemoryUpstream.Range u3 = MemoryUpstream.Returns vs u3
        /\ (canonical_key s, 10 + 5, 20 + 0) ∈ vs)
  /\ (let '(r1, tb1, _) := run_prog (CaddyUpstream.Add u s) tb in
      let '(r2, tb2, _) := run_prog (CaddyUpstream.Consume u (derived_key s) 10 20) tb1 in
      let '(r3, tb3, _) := run_prog (CaddyUpstream.Consume u (canonical_key s) 5 0) tb2 in
      r1 = None /\ r2 = None /\ r3 = None
      /\ holds u tb3 (canonical_key s) {| Up := 10 + 5; Down := 20 + 0 |}
      /\ fst (fst (run_prog (CaddyUpstream.Validate u (canonical_key s)) tb3)) = true
      /\ (canonical_key s, 10 + 5, 20 + 0)
           ∈ visits (snd (run_prog (CaddyUpstream.Range u) tb3))).
Proof.
  intros m u tb s.
  assert (Hr : forall z, -100 <= z <= 100 -> int64_range z)
    by (intros z Hz; unfold int64_range, int64_min, int64_max; lia).
  assert (H1 : int64_range 10) by (apply Hr; lia).
  assert (H2 : int64_range 20) by (apply Hr; lia).
  assert (H3 : int64_range (10 + 5)) by (apply Hr; lia).
  assert (H4 : int64_range (20 + 0)) by (apply Hr; lia).
  assert (Hno : data tb !! (CaddyUpstream.Prefix u +:+ canonical_key s) = None)
    by reflexivity.
  split; [now repeat split |].
  pose proof (both_key_forms_same_entry m u tb s 10 20 5 0 H1 H2 H3 H4 Hno) as Hthm. exact Hthm.
Defined.

(** X8 for the secret Test1234, on a table that holds its entry. *)
Lemma del_then_add_resets_witness :
  let u := trojan_upstream in
  let s := "Test1234"%string in
  let m : gmap string Traffic := {[ canonical_key s := {| Up := 7; Down := 9 |} ]} in
  let tb := state_after (CaddyUpstream.Add u s) empty_table in
  (exists u1 u2,
     MemoryUpstream.Del {| MemoryUpstream.mm := Some m |} s = MemoryUpstream.Returns None u1
     /\ MemoryUpstream.Add u1 s = MemoryUpstream.Returns None u2
     /\ go_index (MemoryUpstream.mm u2) (canonical_key s) = (Traffic_zero, true))
  /\ (let '(r1, tb1, _) := run_prog (CaddyUpstream.Del u s) tb in
      let '(r2, tb2, tr2) := run_prog (CaddyUpstream.Add u s) tb1 in
      r1 = None /\ r2 = None
      /\ holds u tb2 (canonical_key s) Traffic_zero
      /\ exists b, tr2 = [EvExists (CaddyUpstream.Prefix u +:+ canonical_key s) false;
                          EvStore (CaddyUpstream.Prefix u +:+ canonical_key s) b None]).
Proof.
  intros u s m tb. pose proof (del_then_add_resets m u tb s) as Hthm. exact Hthm.
Defined.

(** X9 for the strings a and b. *)
Lemma distinct_keys_distinct_entries_witness :
  let m : gmap string Traffic := ∅ in
  let u := trojan_upstream in
  let tb := state_after (CaddyUpstream.AddKey u "a") empty_table in
  let k1 := "a"%string in
  let k2 := "b"%string in
  k1 ≠ k2
  /\ EncodeToString (StringToByteSlice k1) ≠ EncodeToString (StringToByteSlice k2)
  /\ (exists u1 u2,
        MemoryUpstream.AddKey {| MemoryUpstream.mm := Some m |} k1
        = MemoryUpstream.Returns None u1
        /\ MemoryUpstream.DelKey u1 k2 = MemoryUpstream.Returns None u2
        /\ go_index (MemoryUpstream.mm u2) (EncodeToString (StringToByteSlice k1))
           = (Traffic_zero, true))
  /\ (let key1 := CaddyUpstream.Prefix u +:+ EncodeToString (StringToByteSlice k1) in
      let '(_, tb1, _) := run_prog (CaddyUpstream.DelKey u k2) tb in
      data tb1 !! key1 = data tb !! key1).
Proof.
  intros m u tb k1 k2.
  assert (Hne : k1 ≠ k2) by discriminate.
  split; [exact Hne |]. pose proof (distinct_keys_distinct_entries m u tb k1 k2 Hne) as Hthm. exact Hthm.
Defined.

(** X10 from the empty ledgers, through the life of the secret Test1234. *)
Lemma backends_agree_witness :
  let u := trojan_upstream in
  let m : gmap string Traffic := ∅ in
  let tb := empty_table in
  let s := "Test1234"%string in
  let cs := [CallAdd s; CallConsume (derived_key s) 10 20; CallValidate s;
             CallConsume (canonical_key s) 5 0; CallRange; CallAdd "other";
             CallDel s; CallDelKey "none"] in
  let k := canonical_key "other" in
  (agree u m tb /\ shared_run m cs = true)
  /\ exists m',
       MemoryUpstream.run {| MemoryUpstream.mm := Some m |} cs
       = MemoryUpstream.Returns tt {| MemoryUpstream.mm := Some m' |}
       /\ agree u m' (state_after (CaddyUpstream.run u cs) tb)
       /\ (exists b,
             MemoryUpstream.Validate {| MemoryUpstream.mm := Some m' |} k
             = MemoryUpstream.Returns b {| MemoryUpstream.mm := Some m' |}
             /\ fst (fst (run_prog (CaddyUpstream.Validate u k)
                            (state_after (CaddyUpstream.run u cs) tb))) = b)
       /\ (exists vs,
             MemoryUpstream.Range {| MemoryUpstream.mm := Some m' |}
             = MemoryUpstream.Returns vs {| MemoryUpstream.mm := Some m' |}
             /\ visits (snd (run_prog (CaddyUpstream.Range u)
                               (state_after (CaddyUpstream.run u cs) tb))) ≡ₚ vs).
Proof.
  intros u m tb s cs k.
  assert (Hag : agree u m tb) by (intros key; reflexivity).
  assert (Hs : shared_run m cs = true) by (vm_compute; reflexivity).
  split; [now split |]. pose proof (backends_agree u m tb cs k Hag Hs) as Hthm. exact Hthm.
Defined.

(** X12 for the secret Test1234 on the empty ledgers. *)
Lemma add_then_del_restores_witness :
  let u := trojan_upstream in
  let m : gmap string Traffic := ∅ in
  let tb := empty_table in
  let s := "Test1234"%string in
  (m !! canonical_key s = None
   /\ data tb !! (CaddyUpstream.Prefix u +:+ canonical_key s) = None)
  /\ (exists u1,
        MemoryUpstream.Add {| MemoryUpstream.mm := Some m |} s
        = MemoryUpstream.Returns None u1
        /\ MemoryUpstream.Del u1 s
           = MemoryUpstream.Returns None {| MemoryUpstream.mm := Some m |})
  /\ (let '(r1, tb1, _) := run_prog (CaddyUpstream.Add u s) tb in
      let '(r2, tb2, _) := run_prog (CaddyUpstream.Del u s) tb1 in
      r1 = None /\ r2 = None /\ data tb2 = data tb /\ held tb2 = held tb).
Proof.
  intros u m tb s.
  assert (Hm : m !! canonical_key s = None) by reflexivity.
  assert (Hno : data tb !! (CaddyUpstream.Prefix u +:+ canonical_key s) = None)
    by reflexivity.
  split; [now split |]. pose proof (add_then_del_restores m u tb s Hm Hno) as Hthm. exact Hthm.
Defined.

(** X13 for the derived key of the secret Test1234. *)
Lemma addkey_then_validate_consume_witness :
  let u := trojan_upstream in
  let m : gmap string Traffic := ∅ in
  let tb := empty_table in
  let k := derived_key "Test1234" in
  (len k ≠ AuthLen /\ int64_range 10 /\ int64_range 20
   /\ data tb !! (CaddyUpstream.Prefix u +:+ EncodeToString (StringToByteSlice k)) = None)
  /\ let enc := EncodeToString (StringToByteSlice k) in
     (exists u1 u2,
        MemoryUpstream.AddKey {| MemoryUpstream.mm := Some m |} k
        = MemoryUpstream.Returns None u1
        /\ MemoryUpstream.Validate u1 k = MemoryUpstream.Returns true u1
        /\ MemoryUpstream.Consume u1 k 10 20 = MemoryUpstream.Returns None u2
        /\ go_index (MemoryUpstream.mm u2) enc = ({| Up := 10; Down := 20 |}, true))
     /\ (let '(r1, tb1, _) := run_prog (CaddyUpstream.AddKey u k) tb in
         let '(r2, tb2, _) := run_prog (CaddyUpstream.Consume u k 10 20) tb1 in
         r1 = None /\ r2 = None
         /\ fst (fst (run_prog (CaddyUpstream.Validate u k) tb1)) = true
         /\ holds u tb2 enc {| Up := 10; Down := 20 |}).
Proof.
  intros u m tb k.
  assert (Hk : len k ≠ AuthLen) by (unfold k; rewrite len_derived_key; discriminate).
  assert (H1 : int64_range 10) by (unfold int64_range, int64_min, int64_max; lia).
  assert (H2 : int64_range 20) by (unfold int64_range, int64_min, int64_max; lia).
  assert (Hno : data tb !! (CaddyUpstream.Prefix u +:+ EncodeToString (StringToByteSlice k))
                = None) by reflexivity.
  split; [now repeat split |].
  pose proof (addkey_then_validate_consume m u tb k 10 20 Hk H1 H2 Hno) as Hthm. exact Hthm.
Defined.

(** X14 with the decoder that accepts the empty object: the key B, which
    holds the empty object, is reported with the counters of A. *)
Lemma range_reuses_record_witness :
  let u := trojan_upstream in
  let b1 := match JsonText.Marshal {| Up := 7; Down := 9 |} with
            | inl b => b
            | inr _ => []
            end in
  let b2 := list_byte_of_string "{}" in
  let tb := {| data := {[ "trojan/A"%string := b1; "trojan/B"%string := b2 ]};
               held := ∅ |} in
  (data tb !! "trojan/A"%string = Some b1
   /\ data tb !! "trojan/B"%string = Some b2
   /\ @json_Unmarshal json_lenient b1 Traffic_zero = ({| Up := 7; Down := 9 |}, None)
   /\ @json_Unmarshal json_lenient b2 {| Up := 7; Down := 9 |}
      = ({| Up := 7; Down := 9 |}, None))
  /\ run_prog (@CaddyUpstream.Range_loop json_lenient u ["trojan/A"; "trojan/B"]%string
                 Traffic_zero) tb
     = (tt, tb,
        [EvLoad "trojan/A" (inl b1);
         EvFn (TrimPrefix "trojan/A" (CaddyUpstream.Prefix u)) 7 9;
         EvLoad "trojan/B" (inl b2);
         EvFn (TrimPrefix "trojan/B" (CaddyUpstream.Prefix u)) 7 9]).
Proof.
  intros u b1 b2 tb.
  assert (H1 : data tb !! "trojan/A"%string = Some b1) by (vm_compute; reflexivity).
  assert (H2 : data tb !! "trojan/B"%string = Some b2) by (vm_compute; reflexivity).
  assert (H3 : @json_Unmarshal json_lenient b1 Traffic_zero
               = ({| Up := 7; Down := 9 |}, None)) by (vm_compute; reflexivity).
  assert (H4 : @json_Unmarshal json_lenient b2 {| Up := 7; Down := 9 |}
               = ({| Up := 7; Down := 9 |}, None)) by (vm_compute; reflexivity).
  split; [now repeat split |].
  exact (@range_reuses_record json_lenient u tb "trojan/A" "trojan/B" b1 b2
           {| Up := 7; Down := 9 |} H1 H2 H3 H4).
Defined.

(** X17 with a visitor that calls [AddKey] on the key it is given, over a
    table with one entry. *)
Lemma memory_range_visitor_witness :
  let m : gmap string Traffic := {[ "YQ=="%string := Traffic_zero ]} in
  let inner := fun (k : string) (_ _ : Z) => CallAddKey k in
  (m ≠ ∅ /\ (forall k up down, writes (inner k up down) = true))
  /\ LockedMemoryUpstream.Range
       (fun k up down => LockedMemoryUpstream.exec (inner k up down))
       {| LockedMemoryUpstream.mu := RWMutex.zero; LockedMemoryUpstream.mm := Some m |}
     = LockedMemoryUpstream.Waits.
Proof.
  intros m inner.
  assert (Hm : m ≠ ∅) by apply insert_non_empty.
  assert (Hin : forall k up down, writes (inner k up down) = true) by reflexivity.
  split; [exact (conj Hm Hin) |].
  pose proof (memory_range_visitor m inner true Hm Hin) as Hthm. exact Hthm.
Defined.
